(** * MySim: the butterfly-curve animation of [static/wasm/my_sim.cpp]

    The program keeps three single-precision scalars ([speed], [size],
    [myVal]), advances [myVal] by [dt * speed] once per frame and draws a
    fixed parametric curve scaled by [size].

    C++ [float] is IEEE-754 binary32 and [double] is binary64 (the target is
    WebAssembly, where every [float] operation is rounded to binary32 and
    no fused multiply-add is generated).  Both formats are modelled with
    the executable specification [SpecFloat] of the standard library, so
    every definition below computes. *)

From Stdlib Require Import ZArith List Bool Lia String.
From Stdlib Require Import QArith Qpower.
From Stdlib Require Import Reals Lra Qreals.
From Stdlib Require Import Floats.SpecFloat.
Import ListNotations.

Local Open Scope Z_scope.

(** ** IEEE-754 formats *)

(** [float]: 24 bits of precision, infinities at exponent 128. *)
Module F32.
Definition prec : Z := 24.
Definition emax : Z := 128.
Definition t : Type := spec_float.

Definition add : t -> t -> t := SFadd prec emax.
Definition sub : t -> t -> t := SFsub prec emax.
Definition mul : t -> t -> t := SFmul prec emax.
Definition div : t -> t -> t := SFdiv prec emax.

Definition ltb : t -> t -> bool := SFltb.
Definition leb : t -> t -> bool := SFleb.

(** The value [m * 2^e], rounded to the format (exact for the literals
    of the program). *)
Definition dyadic (m e : Z) : t := binary_normalize prec emax m e false.
(** Conversion of an [int] to [float]. *)
Definition of_int (n : Z) : t := dyadic n 0.

Definition valid (x : t) : bool := valid_binary prec emax x.
End F32.

(** [double]: 53 bits of precision, infinities at exponent 1024. *)
Module F64.
Definition prec : Z := 53.
Definition emax : Z := 1024.
Definition t : Type := spec_float.

Definition add : t -> t -> t := SFadd prec emax.
Definition sub : t -> t -> t := SFsub prec emax.
Definition mul : t -> t -> t := SFmul prec emax.
Definition div : t -> t -> t := SFdiv prec emax.

Definition dyadic (m e : Z) : t := binary_normalize prec emax m e false.
Definition of_int (n : Z) : t := dyadic n 0.

(** The implicit conversion [float -> double]: the same number,
    renormalised to a 53-bit mantissa (no rounding can occur). *)
Definition of_f32 (x : F32.t) : t := SFldexp prec emax x 0.

Definition valid (x : t) : bool := valid_binary prec emax x.
End F64.

(** The exact rational value of a finite float; [None] for infinities and
    NaN.  Used only to state properties, never by the program. *)
Definition value (x : spec_float) : option Q :=
  match x with
  | S754_zero _ => Some 0%Q
  | S754_finite s m e =>
      Some (inject_Z (cond_Zopp s (Zpos m)) * Qpower 2 e)%Q
  | S754_infinity _ | S754_nan => None
  end.

Definition is_finite (x : spec_float) : bool :=
  match x with
  | S754_zero _ | S754_finite _ _ _ => true
  | S754_infinity _ | S754_nan => false
  end.

(** [x >= 0] as an IEEE comparison: false for NaN, true for both zeros
    and for plus infinity. *)
Definition nonneg (x : F32.t) : Prop := F32.leb (F32.of_int 0) x = true.

(** ** External collaborators *)

(** The C math library.  [sin], [cos] and [exp] applied to a [float] select
    the [float] overloads of <cmath>; [pow(float, int)] promotes both
    arguments and computes in [double].  Their results are not fixed by the
    language, so the functions are parameters of the development. *)
Class Libm : Type := {
  sinf : F32.t -> F32.t;
  cosf : F32.t -> F32.t;
  expf : F32.t -> F32.t;
  pow  : F64.t -> F64.t -> F64.t
}.

(** What C (Annex F) fixes at the arguments the end-to-end scenarios use,
    together with a faithfully rounded [exp(1)]: one of the two binary32
    neighbours 2.71828175 and 2.71828198 of [e] (that [e] lies between
    them is [e_bracket] below). *)
Definition expf1_lo : F32.t := S754_finite false 11401300 (-22).
Definition expf1_hi : F32.t := S754_finite false 11401301 (-22).

Record LibmAtZero `{Libm} : Prop := {
  sinf_zero : sinf (S754_zero false) = S754_zero false;
  cosf_zero : cosf (S754_zero false) = F32.of_int 1;
  pow_zero  : pow (S754_zero false) (F64.of_int 5) = S754_zero false;
  expf_one  : expf (F32.of_int 1) = expf1_lo \/ expf (F32.of_int 1) = expf1_hi
}.

(** [common/Animator.h] is not part of the sources at hand: the animation
    helper is an opaque object with a default constructor and an [update]
    method. *)
Class AnimatorSig : Type := {
  Animator : Type;
  Animator_new : Animator;
  Animator_update : Animator -> F32.t -> Animator
}.

(** raylib's colour constant used by [draw]. *)
Variant Color : Set := ORANGE.

(** raylib's window flags used by [main]. *)
Variant ConfigFlag : Set := FLAG_MSAA_4X_HINT | FLAG_WINDOW_HIGHDPI.

(** Calls the functions of this file make to code outside it ([RaylibSim],
    [Draw], [Animator], raylib and the browser run loop), recorded in
    program order.  [Animator_update_call] carries the frame time handed
    to [anim.update]; [Parametric_call] carries the two closures it is
    handed, the parameter range and the colour. *)
Inductive HostCall : Type :=
| SetConfigFlags_call (flags : list ConfigFlag)
| InitWindow_call (width height : Z) (title : string)
| set_main_loop_call (fps : Z) (simulate_infinite_loop : Z)
| GetFrameTime_call
| Animator_update_call (dt : F32.t)
| beginDraw_call
| Grid_call (slices spacing : F32.t)
| Parametric_call (fx fy : F32.t -> F64.t) (tStart tEnd : F32.t) (c : Color)
| endDraw_call.

(** ** class MySim *)

Section MySim.
Context `{Libm} `{AnimatorSig}.

Record MySim : Type := {
  anim  : Animator;
  speed : F32.t;
  size  : F32.t;
  myVal : F32.t
}.

(** [new MySim()]: the default member initialisers
    [speed = 1.0f], [size = 2.0f], [myVal = 0.0f]. *)
Definition MySim_new : MySim :=
  {| anim  := Animator_new;
     speed := F32.of_int 1;
     size  := F32.of_int 2;
     myVal := F32.of_int 0 |}.

(** [void update(float dt) { anim.update(dt); myVal += dt * speed; }] *)
Definition update (dt : F32.t) (this : MySim) : MySim :=
  {| anim  := Animator_update (anim this) dt;
     speed := speed this;
     size  := size this;
     myVal := F32.add (myVal this) (F32.mul dt (speed this)) |}.

(** The calls [update] makes, in order: [anim.update(dt)]. *)
Definition update_calls (dt : F32.t) : list HostCall :=
  [ Animator_update_call dt ].

(** The factor shared by both coordinate closures:
    [exp(cos(t)) - 2*cos(4*t) - pow(sin(t/12.0f), 5)].
    The first subtraction is between two [float]s; [pow] returns a
    [double], so the second subtraction is carried out in [double]. *)
Definition wing (t : F32.t) : F64.t :=
  F64.sub
    (F64.of_f32
       (F32.sub (expf (cosf t))
                (F32.mul (F32.of_int 2) (cosf (F32.mul (F32.of_int 4) t)))))
    (pow (F64.of_f32 (sinf (F32.div t (F32.of_int 12)))) (F64.of_int 5)).

(** [(size * 0.5f)], a [float] product. *)
Definition half_size (this : MySim) : F32.t :=
  F32.mul (size this) (F32.dyadic 1 (-1)).

(** First closure of [draw]:
    [sin(t) * (exp(cos(t)) - 2*cos(4*t) - pow(sin(t/12.0f), 5)) * (size * 0.5f)],
    which reads [size] through the captured [this]. *)
Definition curve_x (this : MySim) (t : F32.t) : F64.t :=
  F64.mul (F64.mul (F64.of_f32 (sinf t)) (wing t))
          (F64.of_f32 (half_size this)).

(** Second closure of [draw]: the same with [cos(t)] in front. *)
Definition curve_y (this : MySim) (t : F32.t) : F64.t :=
  F64.mul (F64.mul (F64.of_f32 (cosf t)) (wing t))
          (F64.of_f32 (half_size this)).

(** The curve point the closures produce at parameter [t]. *)
Definition curve_point (this : MySim) (t : F32.t) : F64.t * F64.t :=
  (curve_x this t, curve_y this t).

(** [void draw()]: the calls it makes, in order.  It changes no field. *)
Definition draw (this : MySim) : list HostCall :=
  [ beginDraw_call;
    Grid_call (F32.of_int 10) (F32.of_int 1);
    Parametric_call (curve_x this) (curve_y this)
                    (F32.of_int 0) (F32.of_int 50) ORANGE;
    endDraw_call ].

(** The embind properties [speed] and [size]: a controller may assign
    them between frames. *)
Definition set_speed (v : F32.t) (this : MySim) : MySim :=
  {| anim := anim this; speed := v; size := size this; myVal := myVal this |}.

Definition set_size (v : F32.t) (this : MySim) : MySim :=
  {| anim := anim this; speed := speed this; size := v; myVal := myVal this |}.

(** ** The process: one global instance pointer and the host *)

Record World : Type := {
  simInstance : option MySim;     (* [MySim* simInstance], [None] = nullptr *)
  frame_time  : F32.t;            (* what [GetFrameTime()] returns *)
  calls       : list HostCall     (* calls made so far *)
}.

Definition GetFrameTime (w : World) : F32.t := frame_time w.

(** [void UpdateDrawFrame()
      { if (simInstance) { simInstance->update(GetFrameTime());
                           simInstance->draw(); } }]
    The argument [GetFrameTime()] is evaluated first, then [update] runs
    with its call to [anim.update], then [draw] with its four calls. *)
Definition UpdateDrawFrame (w : World) : World :=
  match simInstance w with
  | Some sim =>
      let dt := GetFrameTime w in
      let sim' := update dt sim in
      {| simInstance := Some sim';
         frame_time  := frame_time w;
         calls       := calls w
                        ++ [ GetFrameTime_call ]
                        ++ update_calls dt
                        ++ draw sim' |}
  | None => w
  end.

(** [MySim* getSimInstance() { return simInstance; }] *)
Definition getSimInstance (w : World) : option MySim := simInstance w.

(** The memory image at process start: static initialisation sets
    [simInstance = nullptr]; nothing is read from an earlier run. *)
Definition process_start (ft : F32.t) : World :=
  {| simInstance := None; frame_time := ft; calls := [] |}.

(** [int main()] up to the point where the host takes over. *)
Definition main (w : World) : World :=
  {| simInstance := Some MySim_new;
     frame_time  := frame_time w;
     calls       := calls w ++
                    [ SetConfigFlags_call [FLAG_MSAA_4X_HINT; FLAG_WINDOW_HIGHDPI];
                      InitWindow_call 800 600 "MySim";
                      set_main_loop_call 0 1 ] |}.

(** The host run loop: it fixes the frame time and invokes the registered
    callback, once per frame. *)
Definition frame (ft : F32.t) (w : World) : World :=
  UpdateDrawFrame
    {| simInstance := simInstance w; frame_time := ft; calls := calls w |}.

Definition run_frames (fts : list F32.t) (w : World) : World :=
  fold_left (fun w ft => frame ft w) fts w.

(** Modelled from the spec: [Draw::Parametric] of [common/Shapes.h] is not
    among the sources.  The sampler evaluates both coordinate functions
    at a sequence of parameters running from [tStart] to [tEnd] and
    yields the points in that order; the sequence itself (the step count
    is a rendering-quality choice) is the argument [ts]. *)
Definition sample (ts : list F32.t) (fx fy : F32.t -> F64.t)
  : list (F64.t * F64.t) :=
  map (fun t => (fx t, fy t)) ts.

(** The polyline [draw] asks for, on the parameter sequence [ts]. *)
Definition polyline (ts : list F32.t) (this : MySim) : list (F64.t * F64.t) :=
  sample ts (curve_x this) (curve_y this).

(** A sequence of [update] calls on one object. *)
Definition advance_all (dts : list F32.t) (this : MySim) : MySim :=
  fold_left (fun s dt => update dt s) dts this.

(** What can happen to the object between two observations: a frame
    calls [update], a controller assigns one of the two properties. *)
Variant Event : Type :=
| advance (dt : F32.t)
| assign_speed (v : F32.t)
| assign_size (v : F32.t).

Definition step (ev : Event) (this : MySim) : MySim :=
  match ev with
  | advance dt => update dt this
  | assign_speed v => set_speed v this
  | assign_size v => set_size v this
  end.

Definition run (evs : list Event) (this : MySim) : MySim :=
  fold_left (fun s ev => step ev s) evs this.

(** Frame times and speeds that are binary32 data and not negative. *)
Definition admissible (ev : Event) : Prop :=
  match ev with
  | advance dt => F32.valid dt = true /\ nonneg dt
  | assign_speed v => F32.valid v = true /\ nonneg v
  | assign_size _ => True
  end.

Definition finite_event (ev : Event) : Prop :=
  match ev with
  | advance dt => is_finite dt = true
  | assign_speed v => is_finite v = true
  | assign_size _ => True
  end.

(** The fields [update] reads hold binary32 data and [speed] is not
    negative. *)
Definition well_formed (this : MySim) : Prop :=
  F32.valid (myVal this) = true
  /\ F32.valid (speed this) = true
  /\ nonneg (speed this).

(** Moreover [speed] is finite and [myVal] is neither NaN nor minus
    infinity. *)
Definition ordered (this : MySim) : Prop :=
  well_formed this
  /\ is_finite (speed this) = true
  /\ myVal this <> S754_nan
  /\ myVal this <> S754_infinity true.
End MySim.

Arguments MySim {_}.
Arguments World {_}.

(** ** The curve as the specification writes it *)

Section ButterflyFormula.
Context `{Libm}.

(** [e^cos(t) - 2cos(4t) - sin(t/12)^5], with the operations of the
    program. *)
Definition bracket (t : F32.t) : F64.t :=
  F64.sub
    (F64.of_f32
       (F32.sub (expf (cosf t))
                (F32.mul (F32.of_int 2) (cosf (F32.mul (F32.of_int 4) t)))))
    (pow (F64.of_f32 (sinf (F32.div t (F32.of_int 12)))) (F64.of_int 5)).

(** [r(t) = (size/2) * ( sin(t)*(...) , cos(t)*(...) )]: the scalar
    [size/2] is a division by two and multiplies each coordinate from the
    left. *)
Definition r (size : F32.t) (t : F32.t) : F64.t * F64.t :=
  let k := F64.of_f32 (F32.div size (F32.of_int 2)) in
  (F64.mul k (F64.mul (F64.of_f32 (sinf t)) (bracket t)),
   F64.mul k (F64.mul (F64.of_f32 (cosf t)) (bracket t))).
End ButterflyFormula.

(** ** Exactness of a rounded operation *)

(** Two floats denote the same number. *)
Definition same_value (a b : spec_float) : Prop :=
  match value a, value b with
  | Some x, Some y => (x == y)%Q
  | _, _ => False
  end.

(** A float is finite and denotes the rational [q]. *)
Definition has_value (a : spec_float) (q : Q) : Prop :=
  match value a with
  | Some x => (x == q)%Q
  | None => False
  end.

(** The rounded sum, product or quotient is finite and equals the exact
    one: the operation did not round. *)
Definition exact2 (op : spec_float -> spec_float -> spec_float)
           (qop : Q -> Q -> Q) (a b : spec_float) : Prop :=
  match value a, value b, value (op a b) with
  | Some x, Some y, Some z => (z == qop x y)%Q
  | _, _, _ => False
  end.

Definition exact_add32 := exact2 F32.add Qplus.
Definition exact_mul32 := exact2 F32.mul Qmult.

(** ** Auxiliary definitions for the rounding proofs *)

(** [m] followed by [k] zero bits. *)
Definition x2 (k : nat) (m : positive) : positive := Nat.iter k xO m.

(** The part of [binary_round_aux] (at binary32) that follows the first
    shift. *)
Definition round_tail (s : bool) (st : shr_record * Z) : spec_float :=
  let '(mrs', e') := st in
  let '(mrs'', e'') :=
    shr_fexp 24 128
      (round_nearest_even (shr_m mrs') (loc_of_shr_record mrs')) e' loc_Exact in
  match shr_m mrs'' with
  | Z0 => S754_zero s
  | Zpos m => if e'' <=? 128 - 24 then S754_finite s m e'' else S754_infinity s
  | Zneg _ => S754_nan
  end.

(** The binary32 datum with sign [s], integer significand
    [0 <= m2 <= 2^24] and exponent [e1]: a significand of [2^24] carries
    into the next binade, exponents above 104 overflow. *)
Definition encode32 (s : bool) (m2 e1 : Z) : spec_float :=
  match m2 with
  | Z0 => S754_zero s
  | Zpos p =>
      if m2 =? 16777216
      then (if e1 + 1 <=? 104 then S754_finite s 8388608 (e1 + 1)
            else S754_infinity s)
      else (if e1 <=? 104 then S754_finite s p e1 else S754_infinity s)
  | Zneg _ => S754_nan
  end.

(** The coefficients [1/i!] of the exponential series. *)
Definition inv_fact (i : nat) : R := (/ INR (fact i))%R.

(** ** Further vocabulary for statements about the program *)

Definition is_zero (x : spec_float) : bool :=
  match x with S754_zero _ => true | _ => false end.

Definition is_inf (x : spec_float) : bool :=
  match x with S754_infinity _ => true | _ => false end.

(** [x <= 0] as an IEEE comparison. *)
Definition nonpos (x : F32.t) : Prop := F32.leb x (F32.of_int 0) = true.

(** [b] is positive and smaller than half a unit in the last place of the
    positive float [a]: the leading bit of [b] lies below the bit that
    follows the last bit of [a]. *)
Definition below_half_ulp (b a : F32.t) : bool :=
  match a, b with
  | S754_finite false _ ea, S754_finite false mb eb =>
      Zpos (digits2_pos mb) + eb <? ea
  | _, _ => false
  end.

(** The [size] a sequence of events leaves behind, starting from [sz]. *)
Definition last_size (evs : list Event) (sz : F32.t) : F32.t :=
  fold_left (fun s ev => match ev with assign_size v => v | _ => s end) evs sz.

(** ** Concrete collaborators used to evaluate the model *)

(** An animation helper without observable state. *)
#[export] Instance stateless_animator : AnimatorSig :=
  {| Animator := unit;
     Animator_new := tt;
     Animator_update := fun a _ => a |}.

(** The values C fixes for the math functions at zero, and the correctly
    rounded [exp(1)]; other arguments are left undefined (NaN). *)
Definition table_sinf (x : F32.t) : F32.t :=
  match x with S754_zero _ => x | _ => S754_nan end.

Definition table_cosf (x : F32.t) : F32.t :=
  match x with S754_zero _ => F32.of_int 1 | _ => S754_nan end.

Definition table_expf (x : F32.t) : F32.t :=
  match x with
  | S754_zero _ => F32.of_int 1
  | _ => if SFeqb x (F32.of_int 1) then expf1_lo else S754_nan
  end.

Definition table_pow (x y : F64.t) : F64.t :=
  match x with
  | S754_zero _ => if SFltb (S754_zero false) y then x else S754_nan
  | _ => S754_nan
  end.

Definition libm_table : Libm :=
  {| sinf := table_sinf; cosf := table_cosf;
     expf := table_expf; pow := table_pow |}.

(** 0.016f, the frame time of a 60 Hz display. *)
Definition dt_16ms : F32.t := F32.div (F32.of_int 16) (F32.of_int 1000).

(** * Theorems *)

(** ** Facts about binary32 arithmetic *)

(** *** Halving: [x / 2.0f] against [x * 0.5f] *)

Lemma canonical32 : forall m e,
  canonical_mantissa 24 128 m e = true ->
  (Zpos (digits2_pos m) = 24 /\ -149 <= e) \/
  (Zpos (digits2_pos m) < 24 /\ e = -149).
Proof.
  intros m e Hc. unfold canonical_mantissa, fexp, emin in Hc.
  apply Z.eqb_eq in Hc. lia.
Qed.

(** [shr_fexp] with the shift count made explicit. *)
Lemma shr_fexp_shift : forall prec emax m e l n,
  fexp prec emax (Zdigits2 m + e) - e = n ->
  shr_fexp prec emax m e l = shr (shr_record_of_loc m l) e n.
Proof. intros; unfold shr_fexp; subst; reflexivity. Qed.

Lemma digits2_x2 : forall k m,
  Zpos (digits2_pos (x2 k m)) = Zpos (digits2_pos m) + Z.of_nat k.
Proof.
  induction k as [|k IH]; intros m.
  - cbn. lia.
  - change (x2 (S k) m) with ((x2 k m)~0)%positive.
    cbn [digits2_pos]. rewrite Pos2Z.inj_succ, IH. lia.
Qed.

(** A canonical mantissa and exponent pass [binary_round_aux] unchanged. *)
Lemma round_aux_canonical : forall s m e,
  canonical_mantissa 24 128 m e = true -> e <= 104 ->
  binary_round_aux 24 128 s (Zpos m) e loc_Exact = S754_finite s m e.
Proof.
  intros s m e Hc He. unfold canonical_mantissa in Hc. apply Z.eqb_eq in Hc.
  unfold binary_round_aux.
  rewrite (shr_fexp_shift 24 128 (Zpos m) e loc_Exact 0) by (cbn [Zdigits2]; lia).
  cbn [shr shr_record_of_loc shr_m loc_of_shr_record round_nearest_even].
  rewrite (shr_fexp_shift 24 128 (Zpos m) e loc_Exact 0) by (cbn [Zdigits2]; lia).
  cbn [shr shr_record_of_loc shr_m].
  replace (e <=? 128 - 24) with true by (symmetry; apply Z.leb_le; lia).
  reflexivity.
Qed.

Lemma half_normal : forall s m e,
  Zpos (digits2_pos m) = 24 -> -148 <= e <= 104 ->
  F32.mul (S754_finite s m e) (F32.dyadic 1 (-1)) = S754_finite (xorb s false) m (e - 1).
Proof.
  intros s m e Hd He.
  change (F32.dyadic 1 (-1)) with (S754_finite false 8388608 (-24)).
  unfold F32.mul, SFmul, binary_round_aux.
  rewrite (Pos.mul_comm m). change (8388608 * m)%positive with (x2 23 m).
  rewrite (shr_fexp_shift _ _ _ _ _ 23)
    by (cbn [Zdigits2]; rewrite digits2_x2; unfold F32.prec, F32.emax, fexp, emin; lia).
  change (shr (shr_record_of_loc (Z.pos (x2 23 m)) loc_Exact) (e + -24) 23)
    with ({| shr_m := Zpos m; shr_r := false; shr_s := false |}, e + -24 + 23).
  cbn [shr_m loc_of_shr_record round_nearest_even].
  rewrite (shr_fexp_shift _ _ _ _ _ 0)
    by (cbn [Zdigits2]; unfold F32.prec, F32.emax, fexp, emin; lia).
  cbn [shr shr_record_of_loc shr_m].
  replace (e + -24 + 23 <=? F32.emax - F32.prec) with true
    by (symmetry; apply Z.leb_le; unfold F32.emax, F32.prec; lia).
  f_equal. lia.
Qed.

Lemma x2_spec : forall k m, Zpos (x2 k m) = Zpos m * 2 ^ Z.of_nat k.
Proof.
  induction k as [|k IH]; intros m.
  - cbn. lia.
  - change (x2 (S k) m) with ((x2 k m)~0)%positive.
    rewrite Pos2Z.inj_xO, IH, Nat2Z.inj_succ, Z.pow_succ_r by lia. lia.
Qed.

Ltac x2_lia :=
  rewrite ?x2_spec;
  repeat match goal with
         | |- context [2 ^ Z.of_nat ?k] =>
             let v := eval vm_compute in (2 ^ Z.of_nat k) in
             change (2 ^ Z.of_nat k) with v
         end;
  lia.

Lemma div_eucl_unique : forall a b q r,
  0 <= r < b -> a = b * q + r -> Z.div_eucl a b = (q, r).
Proof.
  intros a b q r Hr Ha.
  pose proof (Z.div_unique_pos a b q r Hr Ha) as Hq.
  pose proof (Z.mod_unique_pos a b q r Hr Ha) as Hm.
  unfold Z.div, Z.modulo in Hq, Hm.
  destruct (Z.div_eucl a b) as [q' r']. congruence.
Qed.

Lemma round_aux_tail : forall s m e l,
  binary_round_aux 24 128 s m e l = round_tail s (shr_fexp 24 128 m e l).
Proof. reflexivity. Qed.

Lemma half_subnormal : forall s m,
  Zpos (digits2_pos m) <= 24 ->
  F32.mul (S754_finite s m (-149)) (F32.dyadic 1 (-1))
  = round_tail (xorb s false)
      (shr_1 {| shr_m := Zpos m; shr_r := false; shr_s := false |}, -149).
Proof.
  intros s m Hd.
  change (F32.dyadic 1 (-1)) with (S754_finite false 8388608 (-24)).
  unfold F32.mul, SFmul. change F32.prec with 24. change F32.emax with 128.
  rewrite round_aux_tail.
  rewrite (Pos.mul_comm m). change (8388608 * m)%positive with (x2 23 m).
  rewrite (shr_fexp_shift _ _ _ _ _ 24)
    by (cbn [Zdigits2]; rewrite digits2_x2; unfold fexp, emin; lia).
  reflexivity.
Qed.

Lemma div2_subnormal : forall s m,
  Zpos (digits2_pos m) <= 24 ->
  F32.div (S754_finite s m (-149)) (F32.of_int 2)
  = round_tail (xorb s false)
      (shr_1 {| shr_m := Zpos m; shr_r := false; shr_s := false |}, -149).
Proof.
  intros s m Hd.
  change (F32.of_int 2) with (S754_finite false 8388608 (-22)).
  unfold F32.div, SFdiv, SFdiv_core_binary.
  change F32.prec with 24. change F32.emax with 128.
  cbn [Zdigits2 digits2_pos Pos.succ].
  replace (Z.min (fexp 24 128 (Z.pos (digits2_pos m) + -149 - (24 + -22)))
                 (-149 - -22)) with (-149) by (unfold fexp, emin; lia).
  change (-149 - -22 - -149) with 22.
  change (Z.shiftl (Z.pos m) 22) with (Zpos (x2 22 m)).
  destruct m as [p|p|].
  - rewrite (div_eucl_unique _ _ (Zpos p) 4194304)
      by x2_lia.
    rewrite round_aux_tail.
    rewrite (shr_fexp_shift _ _ _ _ _ 0).
    + reflexivity.
    + cbn [digits2_pos] in Hd. cbn [Zdigits2]. unfold fexp, emin. lia.
  - rewrite (div_eucl_unique _ _ (Zpos p) 0)
      by x2_lia.
    rewrite round_aux_tail.
    rewrite (shr_fexp_shift _ _ _ _ _ 0).
    + reflexivity.
    + cbn [digits2_pos] in Hd. cbn [Zdigits2]. unfold fexp, emin. lia.
  - reflexivity.
Qed.

Lemma div2_normal : forall s m e,
  Zpos (digits2_pos m) = 24 -> -148 <= e <= 104 ->
  F32.div (S754_finite s m e) (F32.of_int 2) = S754_finite (xorb s false) m (e - 1).
Proof.
  intros s m e Hd He.
  change (F32.of_int 2) with (S754_finite false 8388608 (-22)).
  unfold F32.div, SFdiv, SFdiv_core_binary.
  change F32.prec with 24. change F32.emax with 128.
  cbn [Zdigits2 digits2_pos Pos.succ]. rewrite Hd.
  destruct (Z.eq_dec e (-148)) as [->|Hne].
  - change (Z.min (fexp 24 128 (24 + -148 - (24 + -22))) (-148 - -22) ) with (-149).
    change (-148 - -22 - -149) with 23.
    change (Z.shiftl (Z.pos m) 23) with (Zpos (x2 23 m)).
    rewrite (div_eucl_unique _ _ (Zpos m) 0) by x2_lia.
    change (new_location 8388608 0) with loc_Exact.
    apply round_aux_canonical; [|lia].
    unfold canonical_mantissa. rewrite Hd. reflexivity.
  - replace (Z.min (fexp 24 128 (24 + e - (24 + -22))) (e - -22)) with (e - 2)
      by (unfold fexp, emin; lia).
    replace (e - -22 - (e - 2)) with 24 by lia.
    change (Z.shiftl (Z.pos m) 24) with (Zpos (x2 24 m)).
    rewrite (div_eucl_unique _ _ (Zpos m~0) 0)
      by x2_lia.
    change (new_location 8388608 0) with loc_Exact.
    unfold binary_round_aux.
    rewrite (shr_fexp_shift _ _ _ _ _ 1)
      by (cbn [Zdigits2 digits2_pos]; rewrite Pos2Z.inj_succ, Hd; unfold fexp, emin; lia).
    cbn [shr shr_record_of_loc iter_pos shr_1 orb shr_m loc_of_shr_record round_nearest_even].
    rewrite (shr_fexp_shift _ _ _ _ _ 0)
      by (cbn [Zdigits2]; rewrite Hd; unfold fexp, emin; lia).
    cbn [shr shr_record_of_loc shr_m].
    replace (e - 2 + 1 <=? 128 - 24) with true by (symmetry; apply Z.leb_le; lia).
    f_equal. lia.
Qed.

(** Dividing a [float] by two and multiplying it by one half give the
    same [float]. *)
Lemma div2_mul_half : forall x : F32.t,
  F32.valid x = true ->
  F32.div x (F32.of_int 2) = F32.mul x (F32.dyadic 1 (-1)).
Proof.
  intros [s|s| |s m e] Hv; try reflexivity.
  unfold F32.valid, valid_binary, bounded in Hv.
  apply andb_true_iff in Hv as [Hc He]. apply Z.leb_le in He.
  change (F32.emax - F32.prec) with 104 in He.
  destruct (canonical32 m e Hc) as [[Hd Hlo]|[Hd ->]].
  - destruct (Z.eq_dec e (-149)) as [->|Hne].
    + rewrite half_subnormal, div2_subnormal by lia. reflexivity.
    + rewrite half_normal, div2_normal by lia. reflexivity.
  - rewrite half_subnormal, div2_subnormal by lia. reflexivity.
Qed.

(** *** Digits *)

Lemma fexp32 : forall z, fexp 24 128 z = Z.max (z - 24) (-149).
Proof. reflexivity. Qed.

Lemma digits2_pos_size : forall m, digits2_pos m = Pos.size m.
Proof. induction m; cbn; congruence. Qed.

Lemma digits2_log2 : forall m, Zpos (digits2_pos m) = Z.log2 (Zpos m) + 1.
Proof.
  intros m. rewrite digits2_pos_size.
  destruct m; cbn [Z.log2 Pos.size]; lia.
Qed.

Lemma digits2_bounds : forall m,
  2 ^ (Zpos (digits2_pos m) - 1) <= Zpos m < 2 ^ Zpos (digits2_pos m).
Proof.
  intros m. rewrite digits2_log2.
  replace (Z.log2 (Zpos m) + 1 - 1) with (Z.log2 (Zpos m)) by lia.
  apply Z.log2_spec. lia.
Qed.

(** *** Right shifts *)

Lemma shr_1_m : forall r, 0 <= shr_m r -> shr_m (shr_1 r) = shr_m r / 2.
Proof.
  intros [m rb sb] Hm. cbn in Hm.
  destruct m as [|[p|p|]|p]; cbn [shr_1 shr_m].
  - reflexivity.
  - apply (Z.div_unique_pos _ 2 _ 1); lia.
  - apply (Z.div_unique_pos _ 2 _ 0); lia.
  - reflexivity.
  - lia.
Qed.

Lemma iter_shr_1_m : forall p r,
  0 <= shr_m r -> shr_m (iter_pos shr_1 p r) = shr_m r / 2 ^ Zpos p.
Proof.
  induction p as [p IH|p IH|]; intros r Hr; cbn [iter_pos].
  - assert (H1 : 0 <= shr_m (shr_1 r)) by (rewrite shr_1_m by lia; apply Z.div_pos; lia).
    assert (H2 : 0 <= shr_m (iter_pos shr_1 p (shr_1 r)))
      by (rewrite IH by lia; apply Z.div_pos; lia).
    rewrite IH, IH, shr_1_m by lia.
    rewrite !Z.div_div by lia. f_equal.
    rewrite <- Z.pow_add_r by lia. rewrite <- Z.pow_succ_r by lia. f_equal. lia.
  - assert (H2 : 0 <= shr_m (iter_pos shr_1 p r))
      by (rewrite IH by lia; apply Z.div_pos; lia).
    rewrite IH, IH by lia.
    rewrite Z.div_div by lia. f_equal.
    rewrite <- Z.pow_add_r by lia. f_equal. lia.
  - rewrite shr_1_m by lia. reflexivity.
Qed.

Lemma shr_m_of_loc : forall m l, shr_m (shr_record_of_loc m l) = m.
Proof. intros m [|[]]; reflexivity. Qed.

Lemma shr_spec : forall m l e n,
  0 <= m -> 0 <= n ->
  shr_m (fst (shr (shr_record_of_loc m l) e n)) = m / 2 ^ n
  /\ snd (shr (shr_record_of_loc m l) e n) = e + n.
Proof.
  intros m l e [|p|p] Hm Hn; try lia; cbn [shr fst snd].
  - rewrite shr_m_of_loc, Z.div_1_r. lia.
  - rewrite iter_shr_1_m by (rewrite shr_m_of_loc; lia).
    rewrite shr_m_of_loc. lia.
Qed.

Lemma shr_nonpos : forall r e n, n <= 0 -> shr r e n = (r, e).
Proof. intros r e [|p|p] Hn; try reflexivity; lia. Qed.

Lemma round_nearest_even_range : forall m l,
  m <= round_nearest_even m l <= m + 1.
Proof.
  intros m [|[]]; cbn [round_nearest_even]; try lia.
  destruct (Z.even m); lia.
Qed.

Lemma digits2_le_24 : forall p, Zpos p < 16777216 -> Zpos (digits2_pos p) <= 24.
Proof.
  intros p Hp. pose proof (digits2_bounds p) as [Hlo _].
  destruct (Z_le_gt_dec (Zpos (digits2_pos p)) 24) as [|Hgt]; [assumption|].
  assert (2 ^ 24 <= 2 ^ (Zpos (digits2_pos p) - 1))
    by (apply Z.pow_le_mono_r; lia).
  change (2 ^ 24) with 16777216 in *. lia.
Qed.

Lemma round_tail_encode : forall s r e1,
  let m2 := round_nearest_even (shr_m r) (loc_of_shr_record r) in
  0 <= m2 <= 16777216 -> -149 <= e1 ->
  round_tail s (r, e1) = encode32 s m2 e1.
Proof.
  intros s r e1 m2 Hm He. unfold round_tail. fold m2.
  destruct m2 as [|p|p] eqn:E; try lia.
  - rewrite (shr_fexp_shift _ _ _ _ _ (Z.max (e1 - 24) (-149) - e1))
      by (cbn [Zdigits2]; rewrite fexp32; f_equal).
    rewrite shr_nonpos by lia. reflexivity.
  - unfold encode32. destruct (Z.eqb_spec (Zpos p) 16777216) as [Heq|Hne].
    + injection Heq as ->.
      rewrite (shr_fexp_shift _ _ _ _ _ 1)
        by (cbn [Zdigits2 digits2_pos Pos.succ]; rewrite fexp32; lia).
      reflexivity.
    + assert (Hd : Zpos (digits2_pos p) <= 24) by (apply digits2_le_24; lia).
      rewrite (shr_fexp_shift _ _ _ _ _ (Z.max (Zpos (digits2_pos p) + e1 - 24) (-149) - e1))
        by (cbn [Zdigits2]; rewrite fexp32; reflexivity).
      rewrite shr_nonpos by lia. reflexivity.
Qed.

(** The result of [binary_round_aux] when the mantissa is shifted right by
    [n >= 0] places: the truncated mantissa or its successor, at the
    exponent of the format. *)
Lemma round_aux_encode : forall s m e l,
  let e1 := fexp 24 128 (Zpos (digits2_pos m) + e) in
  let q := Zpos m / 2 ^ (e1 - e) in
  e <= e1 ->
  exists m2,
    q <= m2 <= q + 1
    /\ (l = loc_Exact -> e1 = e -> m2 = q)
    /\ q < 16777216
    /\ binary_round_aux 24 128 s (Zpos m) e l = encode32 s m2 e1.
Proof.
  intros s m e l e1 q Hn.
  assert (Hq : q < 16777216).
  { unfold q. apply Z.div_lt_upper_bound; [apply Z.pow_pos_nonneg; lia|].
    pose proof (digits2_bounds m) as [_ Hhi].
    eapply Z.lt_le_trans; [exact Hhi|].
    change 16777216 with (2 ^ 24). rewrite <- Z.pow_add_r by lia.
    apply Z.pow_le_mono_r; [lia|]. unfold e1. rewrite fexp32. lia. }
  assert (Hq0 : 0 <= q) by (unfold q; apply Z.div_pos; [lia|apply Z.pow_pos_nonneg; lia]).
  rewrite round_aux_tail. unfold shr_fexp. cbn [Zdigits2]. fold e1.
  destruct (shr_spec (Zpos m) l e (e1 - e)) as [Hm He]; [lia|lia|].
  destruct (shr (shr_record_of_loc (Zpos m) l) e (e1 - e)) as [r e'] eqn:Hshr.
  cbn [fst snd] in Hm, He. fold q in Hm.
  replace e' with e1 by lia.
  pose proof (round_nearest_even_range (shr_m r) (loc_of_shr_record r)) as Hr.
  exists (round_nearest_even (shr_m r) (loc_of_shr_record r)).
  rewrite Hm in Hr |- *. repeat split; try lia.
  - intros -> He1. replace (e1 - e) with 0 in Hshr by lia.
    cbn [shr shr_record_of_loc] in Hshr. injection Hshr as <- _.
    cbn [shr_m loc_of_shr_record round_nearest_even] in *. lia.
  - rewrite <- Hm. apply round_tail_encode.
    + rewrite Hm. lia.
    + unfold e1. rewrite fexp32. lia.
Qed.

(** *** Digits of a truncated mantissa *)

Lemma div_pos_le : forall a b, 0 <= a -> 0 < b -> 0 < a / b -> b <= a.
Proof.
  intros a b Ha Hb Hq. destruct (Z_le_gt_dec b a) as [|Hgt]; [assumption|].
  rewrite Z.div_small in Hq by lia. lia.
Qed.

Lemma digits_div_pow2 : forall m n,
  0 <= n -> 0 < Zpos m / 2 ^ n ->
  Z.log2 (Zpos m / 2 ^ n) = Z.log2 (Zpos m) - n.
Proof.
  intros m n Hn Hq.
  rewrite <- Z.shiftr_div_pow2 by lia. rewrite Z.log2_shiftr by lia.
  apply div_pos_le in Hq; [|lia|apply Z.pow_pos_nonneg; lia].
  apply Z.log2_le_pow2 in Hq; lia.
Qed.

Lemma canonical_iff : forall p e,
  canonical_mantissa 24 128 p e = true <->
  Z.max (Z.log2 (Zpos p) + 1 + e - 24) (-149) = e.
Proof.
  intros p e. unfold canonical_mantissa. rewrite fexp32, digits2_log2.
  apply Z.eqb_eq.
Qed.

Lemma log2_lt_24 : forall p, Zpos p < 16777216 -> Z.log2 (Zpos p) < 24.
Proof. intros p Hp. apply Z.log2_lt_pow2; [lia|exact Hp]. Qed.

(** The mantissas [round_aux_encode] can return encode valid floats. *)
Lemma encode_valid : forall s m e m2,
  let e1 := fexp 24 128 (Zpos (digits2_pos m) + e) in
  let q := Zpos m / 2 ^ (e1 - e) in
  e <= e1 -> q <= m2 <= q + 1 -> q < 16777216 ->
  valid_binary 24 128 (encode32 s m2 e1) = true.
Proof.
  intros s m e m2 e1 q Hn Hm2 Hq.
  assert (He1 : e1 = Z.max (Z.log2 (Zpos m) + 1 + e - 24) (-149))
    by (unfold e1; rewrite fexp32, digits2_log2; reflexivity).
  assert (Hq0 : 0 <= q)
    by (unfold q; apply Z.div_pos; [lia|apply Z.pow_pos_nonneg; lia]).
  unfold encode32. destruct m2 as [|p|p]; try lia; [reflexivity|].
  destruct (Z.eqb_spec (Zpos p) 16777216) as [Heq|Hne].
  - destruct (Z.leb_spec (e1 + 1) 104) as [Hle|Hgt]; [|reflexivity].
    cbn [valid_binary]. unfold bounded. apply andb_true_iff. split.
    + apply canonical_iff. change (Z.log2 8388608) with 23. lia.
    + apply Z.leb_le. change (128 - 24) with 104. lia.
  - destruct (Z.leb_spec e1 104) as [Hle|Hgt]; [|reflexivity].
    cbn [valid_binary]. unfold bounded. apply andb_true_iff. split.
    2:{ apply Z.leb_le. change (128 - 24) with 104. lia. }
    apply canonical_iff.
    assert (Hp24 : Z.log2 (Zpos p) < 24) by (apply log2_lt_24; lia).
    destruct (Z.eq_dec q 0) as [Hz|Hnz].
    + (* the mantissa was shifted out entirely *)
      assert (Hp1 : Zpos p = 1) by lia. rewrite Hp1. change (Z.log2 1) with 0.
      assert (Hlt : Zpos m < 2 ^ (e1 - e)).
      { apply Z.div_small_iff in Hz; [|apply Z.pow_nonzero; lia].
        destruct Hz as [Hz|Hz]; [lia|].
        assert (0 < 2 ^ (e1 - e)) by (apply Z.pow_pos_nonneg; lia). lia. }
      apply Z.log2_lt_pow2 in Hlt; lia.
    + assert (Hlq : Z.log2 q = Z.log2 (Zpos m) - (e1 - e))
        by (apply digits_div_pow2; lia).
      destruct (Z.eq_dec (Zpos p) q) as [Hpq|Hpq].
      * rewrite Hpq, Hlq. lia.
      * assert (Hs : Zpos p = Z.succ q) by lia. rewrite Hs.
        destruct (Z.log2_succ_or q) as [Hl|Hl]; rewrite Hl.
        -- rewrite Hs, Hl in Hp24. lia.
        -- lia.
Qed.

(** *** Left alignment *)

Lemma shl_align_le : forall m e e', e <= e' -> shl_align m e e' = (m, e).
Proof.
  intros m e e' H. unfold shl_align.
  destruct (e' - e) eqn:E; try reflexivity. lia.
Qed.

Lemma shl_align_gt : forall m e e',
  e' < e ->
  exists m', shl_align m e e' = (m', e')
             /\ Zpos m' = Zpos m * 2 ^ (e - e').
Proof.
  intros m e e' H. unfold shl_align.
  destruct (e' - e) as [|d|d] eqn:E; try lia.
  exists (Pos.iter xO m d). split; [reflexivity|].
  change (Pos.iter xO m d) with (shift_pos d m).
  rewrite shift_pos_correct. replace (e - e') with (Zpos d) by lia.
  change (Z.pow_pos 2 d) with (2 ^ Zpos d). lia.
Qed.

Lemma shl_align_fst : forall m e e',
  e' <= e -> Zpos (fst (shl_align m e e')) = Zpos m * 2 ^ (e - e').
Proof.
  intros m e e' H. destruct (Z.eq_dec e e') as [->|Hne].
  - rewrite shl_align_le by lia. cbn [fst]. rewrite Z.sub_diag. lia.
  - destruct (shl_align_gt m e e') as (m' & -> & Hm'); [lia|]. exact Hm'.
Qed.

Lemma log2_mul_pow2 : forall m k,
  0 <= k -> Z.log2 (Zpos m * 2 ^ k) = Z.log2 (Zpos m) + k.
Proof. intros m k Hk. rewrite Z.log2_mul_pow2 by lia. lia. Qed.

(** [binary_round] in terms of [encode32]. *)
Lemma binary_round_encode : forall s m e,
  let e1 := fexp 24 128 (Zpos (digits2_pos m) + e) in
  exists m2,
    binary_round 24 128 s m e = encode32 s m2 e1
    /\ valid_binary 24 128 (encode32 s m2 e1) = true
    /\ 0 <= m2 <= 16777216
    /\ (e <= e1 ->
        Zpos m / 2 ^ (e1 - e) <= m2 <= Zpos m / 2 ^ (e1 - e) + 1)
    /\ (e1 < e -> m2 = Zpos m * 2 ^ (e - e1)).
Proof.
  intros s m e e1. unfold binary_round. fold e1.
  destruct (Z_le_gt_dec e e1) as [Hle|Hgt].
  - rewrite shl_align_le by lia.
    destruct (round_aux_encode s m e loc_Exact Hle) as (m2 & Hm2 & _ & Hq & Hr).
    fold e1 in Hm2, Hq, Hr. exists m2. repeat split; try lia.
    + exact Hr.
    + apply (encode_valid s m e m2 Hle Hm2 Hq).
    + assert (0 <= Zpos m / 2 ^ (e1 - e))
        by (apply Z.div_pos; [lia|apply Z.pow_pos_nonneg; lia]). lia.
  - destruct (shl_align_gt m e e1) as (m' & -> & Hm'); [lia|].
    assert (Hd : fexp 24 128 (Zpos (digits2_pos m') + e1) = e1).
    { unfold e1 at 2. f_equal. rewrite !digits2_log2, Hm', log2_mul_pow2 by lia. lia. }
    assert (Hle : e1 <= fexp 24 128 (Zpos (digits2_pos m') + e1)) by lia.
    destruct (round_aux_encode s m' e1 loc_Exact Hle) as (m2 & Hm2 & Hex & Hq & Hr).
    rewrite Hd in Hm2, Hex, Hq, Hr. rewrite Z.sub_diag in Hm2, Hex, Hq.
    change (2 ^ 0) with 1 in Hm2, Hex, Hq. rewrite Z.div_1_r in Hm2, Hex, Hq.
    specialize (Hex eq_refl eq_refl). subst m2.
    exists (Zpos m'). repeat split; try lia.
    + exact Hr.
    + pose proof (encode_valid s m' e1 (Zpos m')) as Hv. cbv zeta in Hv.
      rewrite Hd, Z.sub_diag in Hv. change (2 ^ 0) with 1 in Hv.
      rewrite Z.div_1_r in Hv. apply Hv; lia.
Qed.

(** *** Comparison of finite floats of one sign *)

Lemma ltb_pos_false : forall m e ma ea,
  ea < e \/ (e = ea /\ Zpos ma <= Zpos m) ->
  SFltb (S754_finite false m e) (S754_finite false ma ea) = false.
Proof.
  intros m e ma ea H. unfold SFltb, SFcompare.
  destruct (Z.compare_spec e ea) as [Heq|Hlt|Hgt]; try reflexivity; try lia.
  rewrite Pos.compare_cont_spec. cbn [Pos.switch_Eq].
  destruct (Pos.compare_spec m ma) as [?|Hlt|?]; try reflexivity.
  apply Pos2Z.pos_lt_pos in Hlt. lia.
Qed.

Lemma ltb_neg_false : forall m e ma ea,
  e < ea \/ (e = ea /\ Zpos m <= Zpos ma) ->
  SFltb (S754_finite true m e) (S754_finite true ma ea) = false.
Proof.
  intros m e ma ea H. unfold SFltb, SFcompare.
  destruct (Z.compare_spec e ea) as [Heq|Hlt|Hgt]; try reflexivity; try lia.
  rewrite Pos.compare_cont_spec. cbn [Pos.switch_Eq].
  destruct (Pos.compare_spec m ma) as [?|?|Hgt]; try reflexivity.
  apply Pos2Z.pos_lt_pos in Hgt. lia.
Qed.

Lemma div_pow2_ge : forall m a n,
  0 <= n -> a * 2 ^ n <= m -> a <= m / 2 ^ n.
Proof.
  intros m a n Hn H. apply Z.div_le_lower_bound; [apply Z.pow_pos_nonneg; lia|lia].
Qed.

Lemma div_pow2_lt : forall m a n,
  0 <= n -> m < a * 2 ^ n -> m / 2 ^ n < a.
Proof.
  intros m a n Hn H. apply Z.div_lt_upper_bound; [apply Z.pow_pos_nonneg; lia|lia].
Qed.

(** Rounding a positive number that is at least the canonical float
    [ma * 2^ea] gives at least that float. *)
Lemma round_ge : forall ma ea m e,
  canonical_mantissa 24 128 ma ea = true ->
  e <= ea ->
  Zpos ma * 2 ^ (ea - e) <= Zpos m ->
  SFltb (binary_round 24 128 false m e) (S754_finite false ma ea) = false.
Proof.
  intros ma ea m e Hc Hle Hm.
  apply canonical_iff in Hc.
  destruct (binary_round_encode false m e) as (m2 & -> & _ & Hr & Hq & _).
  set (e1 := fexp 24 128 (Zpos (digits2_pos m) + e)) in *.
  assert (He1 : e1 = Z.max (Z.log2 (Zpos m) + 1 + e - 24) (-149))
    by (unfold e1; rewrite fexp32, digits2_log2; reflexivity).
  assert (Hlog : Z.log2 (Zpos ma) + (ea - e) <= Z.log2 (Zpos m)).
  { rewrite <- log2_mul_pow2 by lia. apply Z.log2_le_mono. exact Hm. }
  assert (Hee : ea <= e1) by lia.
  specialize (Hq ltac:(lia)).
  assert (Hq1 : (e1 = ea -> Zpos ma <= Zpos m / 2 ^ (e1 - e))
                /\ 1 <= Zpos m / 2 ^ (e1 - e)).
  { split.
    - intros ->. apply div_pow2_ge; lia.
    - destruct (Z.eq_dec e1 ea) as [->|Hne].
      + assert (Zpos ma <= Zpos m / 2 ^ (ea - e)) by (apply div_pow2_ge; lia). lia.
      + apply div_pow2_ge; [lia|].
        replace (e1 - e) with (Z.log2 (Zpos m) - 23) by lia.
        pose proof (Z.log2_spec (Zpos m) ltac:(lia)) as [Hlo _].
        assert (0 < 2 ^ (Z.log2 (Zpos m) - 23)) by (apply Z.pow_pos_nonneg; lia).
        assert (2 ^ (Z.log2 (Zpos m) - 23) <= 2 ^ Z.log2 (Zpos m))
          by (apply Z.pow_le_mono_r; lia).
        lia. }
  destruct Hq1 as [Hq1 Hq2].
  unfold encode32. destruct m2 as [|p|p]; try lia.
  destruct (Z.eqb_spec (Zpos p) 16777216) as [Heq|Hne].
  - destruct (Z.leb_spec (e1 + 1) 104); [|reflexivity].
    apply ltb_pos_false. lia.
  - destruct (Z.leb_spec e1 104); [|reflexivity].
    apply ltb_pos_false. lia.
Qed.

(** Rounding a positive number below the canonical float [ma * 2^ea]
    gives at most that float (in magnitude). *)
Lemma round_le : forall ma ea m e,
  canonical_mantissa 24 128 ma ea = true ->
  ea <= 104 -> e <= ea ->
  Zpos m < Zpos ma * 2 ^ (ea - e) ->
  SFltb (binary_round 24 128 true m e) (S754_finite true ma ea) = false.
Proof.
  intros ma ea m e Hc Hb Hle Hm.
  apply canonical_iff in Hc.
  destruct (binary_round_encode true m e) as (m2 & -> & _ & Hr & Hq & Hs).
  set (e1 := fexp 24 128 (Zpos (digits2_pos m) + e)) in *.
  assert (He1 : e1 = Z.max (Z.log2 (Zpos m) + 1 + e - 24) (-149))
    by (unfold e1; rewrite fexp32, digits2_log2; reflexivity).
  assert (Hlog : Z.log2 (Zpos m) <= Z.log2 (Zpos ma) + (ea - e)).
  { rewrite <- log2_mul_pow2 by lia. apply Z.log2_le_mono. lia. }
  assert (Hee : e1 <= ea) by lia.
  pose proof (Z.log2_spec (Zpos ma) ltac:(lia)) as [Hma_lo Hma_hi].
  assert (Hnormal : e1 < ea -> 8388608 <= Zpos ma).
  { intros Hlt. replace (Z.log2 (Zpos ma)) with 23 in Hma_lo by lia.
    exact Hma_lo. }
  assert (Hma24 : Zpos ma < 16777216).
  { change 16777216 with (2 ^ 24). apply Z.log2_lt_pow2; lia. }
  assert (Hq1 : e <= e1 -> e1 = ea -> m2 <= Zpos ma).
  { intros H1 H2. specialize (Hq H1). rewrite H2 in Hq.
    assert (Zpos m / 2 ^ (ea - e) < Zpos ma) by (apply div_pow2_lt; lia). lia. }
  unfold encode32. destruct m2 as [|p|p]; try lia; [reflexivity|].
  destruct (Z.eqb_spec (Zpos p) 16777216) as [Heq|Hne].
  - assert (e1 < ea).
    { destruct (Z_le_gt_dec e e1); [|lia].
      destruct (Z.eq_dec e1 ea); [|lia]. specialize (Hq1 ltac:(lia) ltac:(lia)). lia. }
    destruct (Z.leb_spec (e1 + 1) 104); [|lia].
    apply ltb_neg_false. specialize (Hnormal ltac:(lia)). lia.
  - destruct (Z.leb_spec e1 104); [|lia].
    apply ltb_neg_false.
    destruct (Z_le_gt_dec e e1); [|lia].
    destruct (Z.eq_dec e1 ea); [|lia].
    specialize (Hq1 ltac:(lia) ltac:(lia)). lia.
Qed.

(** *** Addition of a non-negative float *)

Lemma encode32_false_shape : forall m2 e1,
  0 <= m2 ->
  encode32 false m2 e1 = S754_zero false
  \/ encode32 false m2 e1 = S754_infinity false
  \/ exists p e, encode32 false m2 e1 = S754_finite false p e.
Proof.
  intros m2 e1 Hm. unfold encode32. destruct m2 as [|p|p]; try lia; [auto|].
  destruct (Zpos p =? 16777216).
  - destruct (e1 + 1 <=? 104); eauto.
  - destruct (e1 <=? 104); eauto.
Qed.

Lemma valid_finite : forall s m e,
  F32.valid (S754_finite s m e) = true ->
  canonical_mantissa 24 128 m e = true /\ e <= 104.
Proof.
  intros s m e H. unfold F32.valid, valid_binary, bounded in H.
  apply andb_true_iff in H as [Hc He]. apply Z.leb_le in He.
  change (F32.emax - F32.prec) with 104 in He. auto.
Qed.

Lemma add_finite_not_below : forall sa ma ea mb eb,
  F32.valid (S754_finite sa ma ea) = true ->
  F32.ltb (F32.add (S754_finite sa ma ea) (S754_finite false mb eb))
          (S754_finite sa ma ea) = false.
Proof.
  intros sa ma ea mb eb Hv. apply valid_finite in Hv as [Hc Hb].
  unfold F32.ltb, F32.add, SFadd. change F32.prec with 24. change F32.emax with 128.
  set (ez := Z.min ea eb).
  pose proof (shl_align_fst ma ea ez ltac:(lia)) as HA.
  pose proof (shl_align_fst mb eb ez ltac:(lia)) as HB.
  set (A := fst (shl_align ma ea ez)) in *.
  set (B := fst (shl_align mb eb ez)) in *.
  destruct sa; cbn [cond_Zopp].
  - (* a < 0 *)
    destruct (- Zpos A + Zpos B) as [|p|p] eqn:E; cbn [binary_normalize].
    + reflexivity.
    + destruct (binary_round_encode false p ez) as (m2 & -> & _ & Hr & _).
      destruct (encode32_false_shape m2 (fexp 24 128 (Zpos (digits2_pos p) + ez)))
        as [->|[->|(q & e & ->)]]; try lia; reflexivity.
    + apply round_le; try assumption; lia.
  - (* a > 0 *)
    change (Zpos A + Zpos B) with (Zpos (A + B)). cbn [binary_normalize].
    apply round_ge; try assumption; lia.
Qed.

Lemma ltb_refl_false : forall x, SFltb x x = false.
Proof.
  intros x. destruct x as [s|s| |s m e];
    [destruct s; reflexivity | destruct s; reflexivity | reflexivity | ].
  unfold SFltb, SFcompare.
  destruct s; rewrite Z.compare_refl, Pos.compare_cont_refl; reflexivity.
Qed.

(** Adding a non-negative float never gives less than what was there. *)
Lemma add_not_below : forall a b,
  F32.valid a = true -> nonneg b ->
  F32.ltb (F32.add a b) a = false.
Proof.
  intros a b Hv Hb. unfold nonneg, F32.leb in Hb.
  destruct b as [sb|sb| |sb mb eb]; try discriminate.
  - (* b is a zero *)
    destruct a as [sa|sa| |sa ma ea];
      try (destruct sa, sb; reflexivity); try reflexivity.
    apply ltb_refl_false.
  - (* b = +inf *)
    destruct sb; [discriminate|].
    destruct a as [sa|sa| |sa ma ea];
      try (destruct sa; reflexivity); reflexivity.
  - (* b finite, positive *)
    destruct sb; [discriminate|].
    destruct a as [sa|sa| |sa ma ea];
      try (destruct sa; reflexivity); try reflexivity.
    apply add_finite_not_below. exact Hv.
Qed.

Lemma add_valid : forall a b,
  F32.valid a = true -> F32.valid b = true -> F32.valid (F32.add a b) = true.
Proof.
  intros a b Ha Hb.
  destruct a as [sa|sa| |sa ma ea], b as [sb|sb| |sb mb eb];
    try (destruct sa, sb; first [reflexivity | assumption]);
    try reflexivity; try assumption.
  unfold F32.add, SFadd, F32.valid. change F32.prec with 24. change F32.emax with 128.
  destruct (cond_Zopp sa (Zpos (fst (shl_align ma ea (Z.min ea eb))))
            + cond_Zopp sb (Zpos (fst (shl_align mb eb (Z.min ea eb)))))
    as [|p|p]; cbn [binary_normalize]; [reflexivity| |].
  - destruct (binary_round_encode false p (Z.min ea eb)) as (m2 & -> & Hval & _).
    exact Hval.
  - destruct (binary_round_encode true p (Z.min ea eb)) as (m2 & -> & Hval & _).
    exact Hval.
Qed.

(** *** Multiplication of non-negative floats *)

Lemma mul_finite_encode : forall sx mx ex sy my ey,
  F32.valid (S754_finite sx mx ex) = true ->
  F32.valid (S754_finite sy my ey) = true ->
  exists m2 e1,
    0 <= m2
    /\ F32.mul (S754_finite sx mx ex) (S754_finite sy my ey)
       = encode32 (xorb sx sy) m2 e1
    /\ valid_binary 24 128 (encode32 (xorb sx sy) m2 e1) = true.
Proof.
  intros sx mx ex sy my ey Hx Hy.
  apply valid_finite in Hx as [Hx _]. apply valid_finite in Hy as [Hy _].
  apply canonical_iff in Hx, Hy.
  unfold F32.mul, SFmul. change F32.prec with 24. change F32.emax with 128.
  assert (Hle : ex + ey <= fexp 24 128 (Zpos (digits2_pos (mx * my)) + (ex + ey))).
  { rewrite fexp32, digits2_log2, Pos2Z.inj_mul.
    pose proof (Z.log2_mul_below (Zpos mx) (Zpos my) ltac:(lia) ltac:(lia)).
    pose proof (Z.log2_nonneg (Zpos mx)). pose proof (Z.log2_nonneg (Zpos my)).
    lia. }
  destruct (round_aux_encode (xorb sx sy) (mx * my) (ex + ey) loc_Exact Hle)
    as (m2 & Hm2 & _ & Hq & Hr).
  exists m2, (fexp 24 128 (Zpos (digits2_pos (mx * my)) + (ex + ey))).
  repeat split.
  - assert (0 <= Zpos (mx * my) / 2 ^ (fexp 24 128 (Zpos (digits2_pos (mx * my)) + (ex + ey)) - (ex + ey)))
      by (apply Z.div_pos; [lia|apply Z.pow_pos_nonneg; lia]). lia.
  - exact Hr.
  - apply (encode_valid (xorb sx sy) (mx * my) (ex + ey) m2 Hle Hm2 Hq).
Qed.

Lemma mul_valid : forall x y,
  F32.valid x = true -> F32.valid y = true -> F32.valid (F32.mul x y) = true.
Proof.
  intros x y Hx Hy.
  destruct x as [sx|sx| |sx mx ex], y as [sy|sy| |sy my ey]; try reflexivity.
  destruct (mul_finite_encode sx mx ex sy my ey Hx Hy) as (m2 & e1 & _ & -> & Hv).
  exact Hv.
Qed.

Lemma mul_nonneg : forall x y,
  F32.valid x = true -> F32.valid y = true ->
  nonneg x -> nonneg y ->
  F32.mul x y = S754_nan \/ nonneg (F32.mul x y).
Proof.
  intros x y Vx Vy Hx Hy. unfold nonneg, F32.leb in *.
  destruct x as [sx|sx| |sx mx ex]; try discriminate;
    destruct y as [sy|sy| |sy my ey]; try discriminate;
    try (destruct sx; try discriminate);
    try (destruct sy; try discriminate);
    try (right; reflexivity); try (left; reflexivity).
  destruct (mul_finite_encode false mx ex false my ey Vx Vy) as (m2 & e1 & Hm & -> & _).
  cbn [xorb].
  destruct (encode32_false_shape m2 e1 Hm) as [->|[->|(q & e & ->)]];
    right; reflexivity.
Qed.

Lemma ltb_trans_false : forall c b a,
  b <> S754_nan ->
  SFltb c b = false -> SFltb b a = false -> SFltb c a = false.
Proof.
  intros c b a Hb Hcb Hba.
  destruct b as [sb|sb| |sb mb eb]; [| |congruence|].
  - destruct c as [sc|sc| |sc mc ec], a as [sa|sa| |sa ma ea];
      try reflexivity; try (destruct sc); try (destruct sa);
      try reflexivity; try discriminate.
  - destruct c as [sc|sc| |sc mc ec], a as [sa|sa| |sa ma ea];
      try reflexivity; try (destruct sc); try (destruct sa); try (destruct sb);
      try reflexivity; try discriminate.
  - destruct c as [sc|sc| |sc mc ec], a as [sa|sa| |sa ma ea];
      try reflexivity; try (destruct sc); try (destruct sa); try (destruct sb);
      try reflexivity; try discriminate.
    + (* three negative finite floats *)
      unfold SFltb, SFcompare in *.
      rewrite !Pos.compare_cont_spec in *. cbn [Pos.switch_Eq] in *.
      destruct (Z.compare_spec ec eb), (Z.compare_spec eb ea),
        (Z.compare_spec ec ea); try reflexivity; try discriminate; try lia.
      destruct (Pos.compare_spec mc mb), (Pos.compare_spec mb ma),
        (Pos.compare_spec mc ma); try reflexivity; try discriminate; lia.
    + (* three positive finite floats *)
      unfold SFltb, SFcompare in *.
      rewrite !Pos.compare_cont_spec in *. cbn [Pos.switch_Eq] in *.
      destruct (Z.compare_spec ec eb), (Z.compare_spec eb ea),
        (Z.compare_spec ec ea); try reflexivity; try discriminate; try lia.
      destruct (Pos.compare_spec mc mb), (Pos.compare_spec mb ma),
        (Pos.compare_spec mc ma); try reflexivity; try discriminate; lia.
Qed.

Lemma compare_antisym : forall a b c,
  SFcompare a b = Some c -> SFcompare b a = Some (CompOpp c).
Proof.
  intros a b c H.
  destruct a as [sa|sa| |sa ma ea], b as [sb|sb| |sb mb eb];
    try discriminate; cbn in H |- *;
    try (destruct sa); try (destruct sb);
    try (injection H as <-; reflexivity).
  - injection H as <-. rewrite (Z.compare_antisym ea eb).
    destruct (ea ?= eb); cbn; try reflexivity.
    rewrite (Pos.compare_cont_antisym ma mb Eq). cbn.
    rewrite ?CompOpp_involutive. reflexivity.
  - injection H as <-. rewrite (Z.compare_antisym ea eb).
    destruct (ea ?= eb); cbn; try reflexivity.
    rewrite (Pos.compare_cont_antisym ma mb Eq). cbn.
    rewrite ?CompOpp_involutive. reflexivity.
Qed.

Lemma leb_of_not_ltb : forall a b,
  a <> S754_nan -> b <> S754_nan ->
  SFltb b a = false -> SFleb a b = true.
Proof.
  intros a b Ha Hb H. unfold SFltb, SFleb in *.
  destruct (SFcompare a b) as [c|] eqn:E.
  - rewrite (compare_antisym a b c E) in H. destruct c; try reflexivity.
    discriminate.
  - destruct a, b; try congruence; discriminate.
Qed.

Lemma nan_dec : forall x : spec_float, {x = S754_nan} + {x <> S754_nan}.
Proof. intros [s|s| |s m e]; first [left; reflexivity | right; discriminate]. Qed.

Section Monotone.
Context `{AnimatorSig}.

Lemma step_well_formed : forall ev s,
  well_formed s -> admissible ev -> well_formed (step ev s).
Proof.
  intros [dt|v|v] s (Hm & Hs & Hn) Ha; cbn in *.
  - destruct Ha as [Hv _]. repeat split; try assumption.
    apply add_valid; [assumption|]. apply mul_valid; assumption.
  - destruct Ha. repeat split; assumption.
  - repeat split; assumption.
Qed.

Lemma step_not_below : forall ev s,
  well_formed s -> admissible ev ->
  F32.ltb (myVal (step ev s)) (myVal s) = false.
Proof.
  intros [dt|v|v] s (Hm & Hs & Hn) Ha; cbn in *.
  - destruct Ha as [Hv Hd].
    destruct (mul_nonneg dt (speed s) Hv Hs Hd Hn) as [-> | Hp].
    + destruct (myVal s); reflexivity.
    + apply add_not_below; assumption.
  - apply ltb_refl_false.
  - apply ltb_refl_false.
Qed.

Lemma step_nan : forall ev s,
  myVal s = S754_nan -> myVal (step ev s) = S754_nan.
Proof.
  intros [dt|v|v] s Hs; cbn; try assumption. rewrite Hs. reflexivity.
Qed.

Lemma run_nan : forall evs s,
  myVal s = S754_nan -> myVal (run evs s) = S754_nan.
Proof.
  induction evs as [|ev evs IH]; intros s Hs; cbn; [assumption|].
  apply IH. apply step_nan. exact Hs.
Qed.

Lemma run_not_below : forall evs s,
  well_formed s -> Forall admissible evs ->
  F32.ltb (myVal (run evs s)) (myVal s) = false.
Proof.
  induction evs as [|ev evs IH]; intros s Hs Hall; cbn.
  - apply ltb_refl_false.
  - change (F32.ltb (myVal (run evs (step ev s))) (myVal s) = false).
    inversion Hall as [|? ? Hev Hevs]; subst.
    pose proof (step_well_formed ev s Hs Hev) as Hs'.
    pose proof (step_not_below ev s Hs Hev) as H1.
    specialize (IH (step ev s) Hs' Hevs).
    destruct (nan_dec (myVal (step ev s))) as [E|E].
    + rewrite (run_nan evs (step ev s) E). reflexivity.
    + eapply ltb_trans_false; [exact E|exact IH|exact H1].
Qed.
End Monotone.

Lemma encode32_not_nan : forall s m2 e1,
  0 <= m2 -> encode32 s m2 e1 <> S754_nan.
Proof.
  intros s m2 e1 Hm. unfold encode32. destruct m2 as [|p|p]; try lia.
  - discriminate.
  - destruct (Zpos p =? 16777216).
    + destruct (e1 + 1 <=? 104); discriminate.
    + destruct (e1 <=? 104); discriminate.
Qed.

Lemma mul_finite_not_nan : forall x y,
  F32.valid x = true -> F32.valid y = true ->
  is_finite x = true -> is_finite y = true ->
  F32.mul x y <> S754_nan.
Proof.
  intros x y Vx Vy Fx Fy.
  destruct x as [sx|sx| |sx mx ex], y as [sy|sy| |sy my ey];
    try discriminate.
  destruct (mul_finite_encode sx mx ex sy my ey Vx Vy) as (m2 & e1 & Hm & -> & _).
  apply encode32_not_nan. exact Hm.
Qed.

Lemma add_finite_not_nan : forall sa ma ea sb mb eb,
  F32.add (S754_finite sa ma ea) (S754_finite sb mb eb) <> S754_nan.
Proof.
  intros. unfold F32.add, SFadd. change F32.prec with 24. change F32.emax with 128.
  destruct (cond_Zopp sa (Zpos (fst (shl_align ma ea (Z.min ea eb))))
            + cond_Zopp sb (Zpos (fst (shl_align mb eb (Z.min ea eb)))))
    as [|p|p]; cbn [binary_normalize]; [discriminate| |].
  - destruct (binary_round_encode false p (Z.min ea eb)) as (m2 & -> & _ & Hr & _).
    apply encode32_not_nan. lia.
  - destruct (binary_round_encode true p (Z.min ea eb)) as (m2 & -> & _ & Hr & _).
    apply encode32_not_nan. lia.
Qed.

(** A non-negative, non-NaN addend keeps the sum away from NaN and from
    minus infinity. *)
Lemma add_stays_ordered : forall a b,
  F32.valid a = true ->
  a <> S754_nan -> a <> S754_infinity true ->
  nonneg b ->
  F32.add a b <> S754_nan /\ F32.add a b <> S754_infinity true.
Proof.
  intros a b Va Ha Hinf Hb.
  pose proof (add_not_below a b Va Hb) as Hlt.
  split.
  - unfold nonneg, F32.leb in Hb.
    destruct b as [sb|sb| |sb mb eb]; try discriminate;
      destruct a as [sa|sa| |sa ma ea]; try congruence;
      try (destruct sa; try congruence); try (destruct sb; try discriminate);
      try discriminate.
    all: apply add_finite_not_nan.
  - intros E. rewrite E in Hlt.
    destruct a as [sa|sa| |sa ma ea]; try congruence; try discriminate.
    destruct sa; [congruence|discriminate].
Qed.

Section MonotoneFinite.
Context `{AnimatorSig}.

Lemma step_ordered : forall ev s,
  ordered s -> admissible ev -> finite_event ev -> ordered (step ev s).
Proof.
  intros ev s (Hwf & Hfs & Hnan & Hinf) Ha Hf.
  split; [apply step_well_formed; assumption|].
  destruct Hwf as (Hm & Hs & Hn).
  destruct ev as [dt|v|v]; cbn in *.
  - destruct Ha as [Hv Hd]. split; [assumption|].
    apply add_stays_ordered; try assumption.
    destruct (mul_nonneg dt (speed s) Hv Hs Hd Hn) as [E|Hp]; [|exact Hp].
    exfalso. revert E. apply mul_finite_not_nan; assumption.
  - auto.
  - auto.
Qed.

Lemma run_ordered : forall evs s,
  ordered s -> Forall admissible evs -> Forall finite_event evs ->
  ordered (run evs s).
Proof.
  induction evs as [|ev evs IH]; intros s Hs Ha Hf; cbn; [assumption|].
  inversion Ha; inversion Hf; subst.
  apply IH; try assumption. apply step_ordered; assumption.
Qed.

Lemma run_above : forall evs s,
  ordered s -> Forall admissible evs -> Forall finite_event evs ->
  F32.leb (myVal s) (myVal (run evs s)) = true.
Proof.
  intros evs s Hs Ha Hf.
  pose proof (run_ordered evs s Hs Ha Hf) as (_ & _ & Hn & _).
  destruct Hs as (Hwf & _ & Hn0 & _).
  apply leb_of_not_ltb; try assumption.
  apply run_not_below; assumption.
Qed.
End MonotoneFinite.

(** ** Conversion from binary32 to binary64 *)





(** ** The number [e] and its binary32 neighbours *)

Section Euler.
Local Open Scope R_scope.

Lemma inv_fact_decreasing : Un_decreasing inv_fact.
Proof.
  intros n. unfold inv_fact.
  apply Rinv_le_contravar; [apply INR_fact_lt_0|].
  apply le_INR, fact_le. lia.
Qed.

Lemma inv_fact_cv : Un_cv inv_fact 0.
Proof.
  intros eps Heps.
  destruct (cv_speed_pow_fact 1 eps Heps) as [N HN].
  exists N. intros n Hn. specialize (HN n Hn).
  unfold inv_fact. rewrite pow1 in HN. unfold Rdiv in HN.
  rewrite Rmult_1_l in HN. exact HN.
Qed.

Lemma exp_m1_series :
  Un_cv (fun N => sum_f_R0 (tg_alt inv_fact) N) (exp (-1)).
Proof.
  unfold exp. destruct (exist_exp (-1)) as [l Hl]. cbn [proj1_sig].
  intros eps Heps. destruct (Hl eps Heps) as [N HN].
  exists N. intros n Hn. specialize (HN n Hn).
  erewrite sum_eq; [exact HN|].
  intros i _. unfold tg_alt, inv_fact. apply Rmult_comm.
Qed.

Lemma inv_fact_S : forall n, inv_fact (S n) = inv_fact n * / IZR (Z.of_nat (S n)).
Proof.
  intros n. unfold inv_fact. rewrite fact_simpl, mult_INR.
  rewrite Rinv_mult. rewrite <- INR_IZR_INZ. apply Rmult_comm.
Qed.

Lemma inv_fact_0 : inv_fact 0 = 1.
Proof. unfold inv_fact. cbn. apply Rinv_1. Qed.

Lemma exp_m1_bounds :
  1 / 2 - 1 / 6 + 1 / 24 - 1 / 120 + 1 / 720 - 1 / 5040 + 1 / 40320
  - 1 / 362880 + 1 / 3628800 - 1 / 39916800 + 1 / 479001600
  - 1 / 6227020800 <= exp (-1)
  <= 1 / 2 - 1 / 6 + 1 / 24 - 1 / 120 + 1 / 720 - 1 / 5040 + 1 / 40320
     - 1 / 362880 + 1 / 3628800 - 1 / 39916800 + 1 / 479001600.
Proof.
  pose proof (alternated_series_ineq inv_fact (exp (-1)) 6
                inv_fact_decreasing inv_fact_cv exp_m1_series) as H.
  change (S (2 * 6)) with 13%nat in H. change (2 * 6)%nat with 12%nat in H.
  cbn [sum_f_R0] in H. unfold tg_alt in H. cbn [Rpow_def.pow] in H.
  rewrite !inv_fact_S, inv_fact_0 in H.
  cbn [Z.of_nat Pos.of_succ_nat Pos.succ] in H.
  lra.
Qed.

(** [e] lies strictly between 11401300 / 2^22 and 11401301 / 2^22. *)
Lemma e_bracket :
  11401300 / 4194304 < exp 1 < 11401301 / 4194304.
Proof.
  pose proof exp_m1_bounds as [Hlo Hhi].
  pose proof (exp_pos 1) as He.
  assert (Hinv : exp 1 * exp (-1) = 1).
  { rewrite <- exp_plus. replace (1 + -1) with 0 by lra. apply exp_0. }
  set (x := exp (-1)) in *. set (e := exp 1) in *.
  assert (H13 : e * (63633137 / 172972800) <= 1).
  { rewrite <- Hinv. apply Rmult_le_compat_l; lra. }
  assert (H12 : 1 <= e * (16019531 / 43545600)).
  { rewrite <- Hinv. apply Rmult_le_compat_l; lra. }
  lra.
Qed.
End Euler.

(** ** Statements about the program *)

(** The literals of the program denote the numbers written in the
    source, and 0.016f is the [float] nearest to 16/1000. *)
Lemma literals_denote :
  has_value (F32.of_int 0) 0 /\ has_value (F32.of_int 1) 1
  /\ has_value (F32.of_int 2) 2 /\ has_value (F32.of_int 4) 4
  /\ has_value (F32.of_int 10) 10 /\ has_value (F32.of_int 12) 12
  /\ has_value (F32.of_int 50) 50 /\ has_value (F32.dyadic 1 (-1)) (1 # 2)
  /\ has_value (F64.of_int 5) 5
  /\ has_value dt_16ms (8589935 # 536870912)
  /\ F32.valid dt_16ms = true.
Proof. repeat split; vm_compute; reflexivity. Qed.

Section Update.
Context `{AnimatorSig}.

(** C2: [update(dt)] replaces [myVal] by the (rounded) sum of its old value
    and the (rounded) product [dt * speed]; it is a total function that
    yields only the new object and leaves [speed] and [size] alone. *)
Theorem update_adds_dt_times_speed :
  forall (dt : F32.t) (this : MySim),
    myVal (update dt this) = F32.add (myVal this) (F32.mul dt (speed this))
    /\ speed (update dt this) = speed this
    /\ size (update dt this) = size this
    /\ anim (update dt this) = Animator_update (anim this) dt.
Proof.
  intros dt this. unfold update; cbn. repeat split.
Qed.

Lemma advance_all_size : forall dts (s : MySim),
  size (advance_all dts s) = size s.
Proof.
  induction dts as [|dt dts IH]; intros s; cbn; [reflexivity|].
  unfold advance_all in IH. rewrite IH. reflexivity.
Qed.

End Update.

Section Additivity.
Context `{AnimatorSig}.

Lemma exact2_values : forall op qop a b,
  exact2 op qop a b ->
  exists x y z, value a = Some x /\ value b = Some y /\
                value (op a b) = Some z /\ (z == qop x y)%Q.
Proof.
  unfold exact2; intros op qop a b He.
  destruct (value a) as [x|]; [|contradiction].
  destruct (value b) as [y|]; [|contradiction].
  destruct (value (op a b)) as [z|]; [|contradiction].
  exists x, y, z; auto.
Qed.

(** C3 (as amended): when none of the sums and products involved rounds,
    [update(dt1); update(dt2)] and the single [update(dt1 + dt2)] leave the
    same number in [myVal]. *)
Theorem update_additive_when_exact :
  forall (dt1 dt2 : F32.t) (this : MySim),
    exact_mul32 dt1 (speed this) ->
    exact_mul32 dt2 (speed this) ->
    exact_add32 (myVal this) (F32.mul dt1 (speed this)) ->
    exact_add32 (myVal (update dt1 this)) (F32.mul dt2 (speed this)) ->
    exact_add32 dt1 dt2 ->
    exact_mul32 (F32.add dt1 dt2) (speed this) ->
    exact_add32 (myVal this) (F32.mul (F32.add dt1 dt2) (speed this)) ->
    same_value (myVal (update dt2 (update dt1 this)))
               (myVal (update (F32.add dt1 dt2) this)).
Proof.
  intros dt1 dt2 this M1 M2 A1 A2 S12 M12 A12.
  cbn in *.
  apply exact2_values in M1 as (d1 & sp & p1 & Hd1 & Hsp & Hp1 & E1).
  apply exact2_values in M2 as (d2 & sp' & p2 & Hd2 & Hsp' & Hp2 & E2).
  apply exact2_values in A1 as (a & p1' & a1 & Ha & Hp1' & Ha1 & E3).
  apply exact2_values in A2 as (a1' & p2' & a2 & Ha1' & Hp2' & Ha2 & E4).
  apply exact2_values in S12 as (d1' & d2' & d12 & Hd1' & Hd2' & Hd12 & E5).
  apply exact2_values in M12 as (d12' & sp'' & p12 & Hd12' & Hsp'' & Hp12 & E6).
  apply exact2_values in A12 as (a' & p12' & a12 & Ha' & Hp12' & Ha12 & E7).
  unfold exact_add32, exact_mul32 in *.
  replace sp' with sp in * by congruence.
  replace sp'' with sp in * by congruence.
  replace p1' with p1 in * by congruence.
  replace p2' with p2 in * by congruence.
  replace a1' with a1 in * by congruence.
  replace d1' with d1 in * by congruence.
  replace d2' with d2 in * by congruence.
  replace d12' with d12 in * by congruence.
  replace p12' with p12 in * by congruence.
  replace a' with a in * by congruence.
  unfold same_value. rewrite Ha2, Ha12.
  rewrite E4, E7, E3, E6, E5, E1, E2. ring.
Qed.

End Additivity.

(** C3 (witness): from the fresh object, 0.5 then 0.25 against 0.75. *)
Lemma update_additive_witness :
  let dt1 := F32.dyadic 1 (-1) in
  let dt2 := F32.dyadic 1 (-2) in
  let this := @MySim_new stateless_animator in
  same_value (myVal (update dt2 (update dt1 this)))
             (myVal (update (F32.add dt1 dt2) this)).
Proof.
  intros dt1 dt2 this.
  apply (update_additive_when_exact dt1 dt2 this); vm_compute; reflexivity.
Defined.

(** C3 (counterexample): after [update(1.0f)] on the fresh object
    ([speed = 1], [myVal = 1]), two frames of 0.016f leave
    [8657044 * 2^-23] in [myVal], while one call with the sum of the two
    frame times leaves [8657043 * 2^-23].  Likewise two steps of [2^-24]
    are both absorbed by the rounding ([1 + 2^-24] is a tie that rounds
    to the even neighbour 1), while their sum [2^-23] is not. *)
Lemma update_not_additive :
  let this := update (F32.of_int 1) (@MySim_new stateless_animator) in
  let two_calls := myVal (update dt_16ms (update dt_16ms this)) in
  let one_call := myVal (update (F32.add dt_16ms dt_16ms) this) in
  let tiny := F32.dyadic 1 (-24) in
  F32.leb (F32.of_int 0) dt_16ms = true
  /\ myVal this = F32.of_int 1
  /\ two_calls = S754_finite false 8657044 (-23)
  /\ one_call = S754_finite false 8657043 (-23)
  /\ two_calls <> one_call
  /\ ~ same_value two_calls one_call
  /\ myVal (update tiny (update tiny this)) = F32.of_int 1
  /\ myVal (update (F32.add tiny tiny) this) = S754_finite false 8388609 (-23).
Proof.
  cbv zeta. repeat split; try (vm_compute; reflexivity).
  - vm_compute. discriminate.
  - vm_compute. discriminate.
Qed.

Section Frame.
Context `{Libm} `{AnimatorSig}.

(** C6: at process start the instance pointer is null; [main] installs a
    fresh object whose fields are [speed = 1.0f], [size = 2.0f],
    [myVal = 0.0f], whatever the memory held before. *)
Theorem main_installs_defaults :
  forall ft : F32.t,
    simInstance (process_start ft) = None
    /\ forall w : World,
         exists sim : MySim,
           simInstance (main w) = Some sim
           /\ speed sim = S754_finite false 8388608 (-23)
           /\ has_value (speed sim) 1
           /\ size sim = S754_finite false 8388608 (-22)
           /\ has_value (size sim) 2
           /\ myVal sim = S754_zero false
           /\ has_value (myVal sim) 0.
Proof.
  intros ft. split; [reflexivity|].
  intros w. exists MySim_new. repeat split; vm_compute; reflexivity.
Qed.

(** C7: with a live instance, the callback reads the frame time, runs
    [update] with it (whose call to [anim.update] is the next entry of
    the call log) and only then issues the calls of [draw], on the
    updated object (the grid, then the curve, between [beginDraw] and
    [endDraw]): in the log every call of [update] precedes every call of
    [draw], and nothing comes in between.  The object left behind is the
    updated one; no other change is made. *)
Theorem UpdateDrawFrame_update_then_draw :
  forall (w : World) (sim : MySim),
    simInstance w = Some sim ->
    let dt := GetFrameTime w in
    let sim' := update dt sim in
    simInstance (UpdateDrawFrame w) = Some sim'
    /\ calls (UpdateDrawFrame w)
       = calls w ++ [GetFrameTime_call] ++ update_calls dt ++ draw sim'
    /\ calls (UpdateDrawFrame w)
       = calls w
         ++ [ GetFrameTime_call;
              Animator_update_call dt;
              beginDraw_call;
              Grid_call (F32.of_int 10) (F32.of_int 1);
              Parametric_call (curve_x sim') (curve_y sim')
                              (F32.of_int 0) (F32.of_int 50) ORANGE;
              endDraw_call ]
    /\ draw sim'
       = [ beginDraw_call;
           Grid_call (F32.of_int 10) (F32.of_int 1);
           Parametric_call (curve_x sim') (curve_y sim')
                           (F32.of_int 0) (F32.of_int 50) ORANGE;
           endDraw_call ]
    /\ frame_time (UpdateDrawFrame w) = frame_time w
    /\ myVal sim' = F32.add (myVal sim) (F32.mul (GetFrameTime w) (speed sim)).
Proof.
  intros w sim Hsim dt sim'. unfold UpdateDrawFrame. rewrite Hsim.
  cbn. repeat split.
Qed.

(** Over several frames the object goes through the successive [update]s
    of the frame times, and a null pointer stays null. *)
Lemma run_frames_instance : forall (fts : list F32.t) (w : World),
  simInstance (run_frames fts w)
  = option_map (advance_all fts) (simInstance w).
Proof.
  induction fts as [|ft fts IH]; intros w; cbn.
  - destruct (simInstance w); reflexivity.
  - unfold run_frames in IH. rewrite IH.
    unfold frame, UpdateDrawFrame; cbn.
    destruct (simInstance w); reflexivity.
Qed.

(** C10: with a null instance pointer the callback returns the world it
    was given: the pointer is still null and no call was made. *)
Theorem UpdateDrawFrame_null_noop :
  forall w : World,
    simInstance w = None ->
    UpdateDrawFrame w = w
    /\ simInstance (UpdateDrawFrame w) = None
    /\ calls (UpdateDrawFrame w) = calls w.
Proof.
  intros w Hnull. unfold UpdateDrawFrame. rewrite Hnull. auto.
Qed.

(** C9: objects that agree on [size] issue the same calls, closures
    included, and produce the same curve point at every parameter; hence
    no sequence of [update] calls changes what is drawn. *)
Theorem draw_depends_only_on_size :
  forall s1 s2 : MySim,
    size s1 = size s2 ->
    draw s1 = draw s2
    /\ (forall t, curve_point s1 t = curve_point s2 t)
    /\ (forall ts, polyline ts s1 = polyline ts s2)
    /\ (forall dts, draw (advance_all dts s1) = draw s2)
    /\ (forall dts ts, polyline ts (advance_all dts s1) = polyline ts s2).
Proof.
  assert (Hdraw : forall a b : MySim, size a = size b -> draw a = draw b).
  { intros a b Hab. unfold draw, curve_x, curve_y, half_size.
    rewrite Hab. reflexivity. }
  assert (Hline : forall (a b : MySim) ts,
            size a = size b -> polyline ts a = polyline ts b).
  { intros a b ts Hab. unfold polyline, curve_x, curve_y, half_size.
    rewrite Hab. reflexivity. }
  intros s1 s2 Hsize. repeat split.
  - apply Hdraw, Hsize.
  - intros t. unfold curve_point, curve_x, curve_y, half_size.
    rewrite Hsize. reflexivity.
  - intros ts. apply Hline, Hsize.
  - intros dts. apply Hdraw. rewrite advance_all_size. exact Hsize.
  - intros dts ts. apply Hline. rewrite advance_all_size. exact Hsize.
Qed.
End Frame.

(** C7 (witness): the first frame after [main], 16 ms long. *)
Lemma UpdateDrawFrame_witness :
  let w := @main stateless_animator
             (@process_start stateless_animator dt_16ms) in
  let sim' := update dt_16ms MySim_new in
  simInstance (@UpdateDrawFrame libm_table _ w) = Some sim'
  /\ calls (@UpdateDrawFrame libm_table _ w)
     = calls w
       ++ [ GetFrameTime_call;
            Animator_update_call dt_16ms;
            beginDraw_call;
            Grid_call (F32.of_int 10) (F32.of_int 1);
            Parametric_call (@curve_x libm_table _ sim')
                            (@curve_y libm_table _ sim')
                            (F32.of_int 0) (F32.of_int 50) ORANGE;
            endDraw_call ].
Proof.
  intros w sim'.
  destruct (@UpdateDrawFrame_update_then_draw libm_table _ w MySim_new
              eq_refl) as (Hsim & _ & Hcalls & _).
  split; [exact Hsim | exact Hcalls].
Defined.

(** C10 (witness): the callback before [main] has run. *)
Lemma UpdateDrawFrame_null_witness :
  let w := @process_start stateless_animator dt_16ms in
  @UpdateDrawFrame libm_table _ w = w.
Proof.
  intros w. apply (proj1 (@UpdateDrawFrame_null_noop libm_table _ w eq_refl)).
Defined.

(** C9 (witness): two objects of size 2 with different [speed] and
    [myVal]. *)
Lemma draw_depends_only_on_size_witness :
  let s1 := @MySim_new stateless_animator in
  let s2 := set_speed (F32.of_int 3) (update dt_16ms s1) in
  @draw libm_table _ s1 = @draw libm_table _ s2.
Proof.
  intros s1 s2.
  apply (@draw_depends_only_on_size libm_table _ s1 s2). reflexivity.
Defined.

Section Scenarios.
Context `{Libm} `{AnimatorSig}.

Lemma of_f32_zero : F64.of_f32 (S754_zero false) = S754_zero false.
Proof. reflexivity. Qed.

Lemma wing_at_zero :
  LibmAtZero ->
  wing (F32.of_int 0)
  = F64.sub (F64.of_f32 (F32.sub (expf (F32.of_int 1)) (F32.of_int 2)))
            (S754_zero false).
Proof.
  intros [Hsin Hcos Hpow _]. unfold wing.
  change (F32.of_int 0) with (S754_zero false).
  change (F32.mul (F32.of_int 4) (S754_zero false)) with (S754_zero false).
  change (F32.div (S754_zero false) (F32.of_int 12)) with (S754_zero false).
  rewrite Hsin, Hcos, of_f32_zero, Hpow.
  change (F32.mul (F32.of_int 2) (F32.of_int 1)) with (F32.of_int 2).
  reflexivity.
Qed.

(** C5: at [t = 0] with [size = 2] the abscissa is zero and the ordinate
    is the library's [exp(1)] minus 2, which is within [2^-22] of [e - 2]
    and lies between 0.71828 and 0.71829; with [size = 4] both
    coordinates are exactly twice that, the ordinate lying between 1.4365
    and 1.4375. *)
Theorem curve_point_at_zero :
  LibmAtZero ->
  forall s2 s4 : MySim,
    size s2 = F32.of_int 2 ->
    size s4 = F32.of_int 4 ->
    let t0 := F32.of_int 0 in
    curve_x s2 t0 = S754_zero false
    /\ same_value (curve_y s2 t0)
                  (F32.sub (expf (F32.of_int 1)) (F32.of_int 2))
    /\ (exists q : Q,
          has_value (curve_y s2 t0) q
          /\ (Rabs (Q2R q - (exp 1 - 2)) < / 4194304)%R
          /\ (71828 # 100000 <= q)%Q /\ (q <= 71829 # 100000)%Q
          /\ has_value (curve_y s4 t0) (2 * q)
          /\ (14365 # 10000 <= 2 * q)%Q /\ (2 * q <= 14375 # 10000)%Q)
    /\ curve_x s4 t0 = F64.mul (F64.of_int 2) (curve_x s2 t0)
    /\ curve_y s4 t0 = F64.mul (F64.of_int 2) (curve_y s2 t0).
Proof.
  intros L s2 s4 H2 H4 t0. subst t0.
  unfold curve_x, curve_y, half_size.
  rewrite (wing_at_zero L), H2, H4.
  change (F32.of_int 0) with (S754_zero false).
  destruct L as [Hsin Hcos _ Hexp]. rewrite Hsin, Hcos.
  destruct Hexp as [E|E]; rewrite E.
  - repeat split; try (vm_compute; reflexivity).
    exists ((11401300 # 4194304) - 2)%Q.
    split; [vm_compute; reflexivity|]. split.
    + rewrite Q2R_minus. unfold Q2R. cbn [Qnum Qden].
      pose proof e_bracket. apply Rabs_def1; lra.
    + repeat split; vm_compute; first [reflexivity | intro; discriminate].
  - repeat split; try (vm_compute; reflexivity).
    exists ((11401301 # 4194304) - 2)%Q.
    split; [vm_compute; reflexivity|]. split.
    + rewrite Q2R_minus. unfold Q2R. cbn [Qnum Qden].
      pose proof e_bracket. apply Rabs_def1; lra.
    + repeat split; vm_compute; first [reflexivity | intro; discriminate].
Qed.
End Scenarios.

Lemma libm_table_at_zero : @LibmAtZero libm_table.
Proof.
  split; try reflexivity. left; reflexivity.
Qed.

(** C5 (witness): the fresh object, and the same with [size] set to 4. *)
Lemma curve_point_at_zero_witness :
  let s2 := @MySim_new stateless_animator in
  let s4 := set_size (F32.of_int 4) s2 in
  @curve_y libm_table _ s4 (F32.of_int 0)
  = F64.mul (F64.of_int 2) (@curve_y libm_table _ s2 (F32.of_int 0)).
Proof.
  intros s2 s4.
  apply (@curve_point_at_zero libm_table _ libm_table_at_zero s2 s4);
    reflexivity.
Defined.

Section Scaling.
Context `{Libm} `{AnimatorSig}.




End Scaling.



(** ** The curve formula *)

Lemma SFmul_comm : forall prec emax x y,
  SFmul prec emax x y = SFmul prec emax y x.
Proof.
  intros prec emax [sx|sx| |sx mx ex] [sy|sy| |sy my ey]; cbn;
    rewrite ?(xorb_comm sx sy); try reflexivity.
  rewrite (Pos.mul_comm mx my), (Z.add_comm ex ey). reflexivity.
Qed.

Section Butterfly.
Context `{Libm} `{AnimatorSig}.

(** C1: at every parameter [t] (in particular on the sampled range
    [0, 50]) and for every binary32 value of [size], the point produced by
    the closures of [draw] is [r(t)]; its coordinates are
    [sin(t) * (exp(cos(t)) - 2*cos(4*t) - sin(t/12)^5) * (size/2)] and the
    same with [cos(t)] in front. *)
Theorem curve_point_is_butterfly :
  forall (this : MySim) (t : F32.t),
    F32.valid (size this) = true ->
    curve_point this t = r (size this) t
    /\ (forall ts, polyline ts this = map (r (size this)) ts)
    /\ curve_x this t
       = F64.mul (F64.mul (F64.of_f32 (sinf t)) (bracket t))
                 (F64.of_f32 (F32.div (size this) (F32.of_int 2)))
    /\ curve_y this t
       = F64.mul (F64.mul (F64.of_f32 (cosf t)) (bracket t))
                 (F64.of_f32 (F32.div (size this) (F32.of_int 2))).
Proof.
  intros this t Hsize.
  assert (Hpoint : forall u, curve_point this u = r (size this) u).
  { intros u. unfold curve_point, r, curve_x, curve_y, half_size.
    change (bracket u) with (wing u).
    rewrite (div2_mul_half (size this) Hsize).
    f_equal; apply SFmul_comm. }
  split; [apply Hpoint|]. split.
  - intros ts. unfold polyline, sample. apply map_ext. intros u.
    apply (Hpoint u).
  - unfold curve_x, curve_y, half_size. change (bracket t) with (wing t).
    rewrite (div2_mul_half (size this) Hsize). split; reflexivity.
Qed.
End Butterfly.

(** C1 (witness): the fresh object at [t = 0]. *)
Lemma curve_point_is_butterfly_witness :
  let this := @MySim_new stateless_animator in
  @curve_point libm_table _ this (F32.of_int 0)
  = @r libm_table (size this) (F32.of_int 0).
Proof.
  intros this.
  apply (@curve_point_is_butterfly libm_table _ this (F32.of_int 0)).
  reflexivity.
Defined.

(** ** Monotonicity of the accumulator *)

Section NeverDecreases.
Context `{AnimatorSig}.

Lemma advance_all_run : forall dts (s : MySim),
  advance_all dts s = run (map advance dts) s.
Proof.
  induction dts as [|dt dts IH]; intros s; cbn; [reflexivity|].
  unfold advance_all, run in IH. apply IH.
Qed.

Lemma MySim_new_ordered : ordered MySim_new.
Proof. repeat split; discriminate. Qed.

(** C8: [myVal] starts at zero and each [update] adds [dt * speed] to it.
    Over any sequence of frames and property assignments in which every
    frame time and every speed is non-negative, [myVal] does not become
    smaller; when those values are moreover finite, the new [myVal] is
    greater than or equal to the old one.  In particular, starting from
    the fresh object it never becomes negative. *)
Theorem myVal_never_decreases :
  forall (evs : list Event) (this : MySim),
    well_formed this ->
    Forall admissible evs ->
    myVal MySim_new = S754_zero false
    /\ (forall dt, myVal (step (advance dt) this)
                   = F32.add (myVal this) (F32.mul dt (speed this)))
    /\ F32.ltb (myVal (run evs this)) (myVal this) = false
    /\ (is_finite (myVal this) = true ->
        is_finite (speed this) = true ->
        Forall finite_event evs ->
        F32.leb (myVal this) (myVal (run evs this)) = true)
    /\ F32.ltb (myVal (run evs MySim_new)) (F32.of_int 0) = false
    /\ (forall dts, evs = map advance dts ->
        F32.ltb (myVal (advance_all dts this)) (myVal this) = false).
Proof.
  intros evs this Hwf Hadm. repeat split.
  - apply run_not_below; assumption.
  - intros Hfin Hspeed Hfinite. apply run_above; try assumption.
    repeat split; try assumption; try apply Hwf.
    + intros E. rewrite E in Hfin. discriminate.
    + intros E. rewrite E in Hfin. discriminate.
  - apply (run_not_below evs MySim_new); [apply MySim_new_ordered|assumption].
  - intros dts ->. rewrite advance_all_run. apply run_not_below; assumption.
Qed.
End NeverDecreases.

(** C8 (witness): two 16 ms frames around a change of [speed] to 3. *)
Lemma myVal_never_decreases_witness :
  let evs := [advance dt_16ms; assign_speed (F32.of_int 3); advance dt_16ms] in
  let this := @MySim_new stateless_animator in
  F32.ltb (myVal (run evs this)) (myVal this) = false.
Proof.
  intros evs this.
  refine (proj1 (proj2 (proj2 (myVal_never_decreases evs this _ _)))).
  - repeat split; reflexivity.
  - repeat constructor; reflexivity.
Defined.

(** ** Further properties of the program *)

(** *** Sign symmetry of the rounded operations *)

Lemma round_aux_opp : forall prec emax s m e l,
  SFopp (binary_round_aux prec emax s m e l)
  = binary_round_aux prec emax (negb s) m e l.
Proof.
  intros. unfold binary_round_aux.
  destruct (shr_fexp prec emax m e l) as [mrs' e'].
  destruct (shr_fexp prec emax _ e' loc_Exact) as [mrs'' e''].
  destruct (shr_m mrs''); try reflexivity.
  destruct (e'' <=? emax - prec); reflexivity.
Qed.

Lemma binary_round_opp : forall prec emax s m e,
  SFopp (binary_round prec emax s m e) = binary_round prec emax (negb s) m e.
Proof.
  intros. unfold binary_round.
  destruct (shl_align m e _) as [mz ez]. apply round_aux_opp.
Qed.

Lemma xorb_negb : forall a b, xorb a (negb b) = negb (xorb a b).
Proof. destruct a, b; reflexivity. Qed.

Lemma SFmul_opp_r : forall prec emax x y,
  SFmul prec emax x (SFopp y) = SFopp (SFmul prec emax x y).
Proof.
  intros prec emax [sx|sx| |sx mx ex] [sy|sy| |sy my ey]; cbn [SFmul SFopp];
    rewrite ?xorb_negb; try reflexivity.
  symmetry. apply round_aux_opp.
Qed.

Lemma SFmul_opp_l : forall prec emax x y,
  SFmul prec emax (SFopp x) y = SFopp (SFmul prec emax x y).
Proof.
  intros. rewrite SFmul_comm, SFmul_opp_r, SFmul_comm. reflexivity.
Qed.

Lemma of_f32_opp : forall x, F64.of_f32 (SFopp x) = SFopp (F64.of_f32 x).
Proof.
  intros [s|s| |s m e]; try reflexivity.
  unfold F64.of_f32, SFldexp. cbn [SFopp]. symmetry. apply binary_round_opp.
Qed.

Section Reflection.
Context `{Libm} `{AnimatorSig}.

(** X1: a negated [size] negates both coordinates at every parameter: a
    coordinate that is a number (a zero, a finite number or an infinity)
    comes out with the opposite sign and the same magnitude, exactly, and
    a coordinate that is NaN stays NaN ([SFopp] leaves NaN alone: the
    floats of this development carry neither sign nor payload of a NaN,
    and nothing is stated about them). *)
Theorem negated_size_reflects_curve :
  forall (this : MySim) (t : F32.t),
    curve_point (set_size (SFopp (size this)) this) t
    = (SFopp (curve_x this t), SFopp (curve_y this t)).
Proof.
  intros this t. unfold curve_point, curve_x, curve_y, half_size.
  cbn [size set_size]. unfold F32.mul, F64.mul.
  rewrite SFmul_opp_l, of_f32_opp, !SFmul_opp_r. reflexivity.
Qed.
End Reflection.

(** *** Multiplying by one *)

Lemma mul_one : forall x : F32.t,
  F32.valid x = true -> F32.mul x (F32.of_int 1) = x.
Proof.
  intros [s|s| |s m e] Hv; try (destruct s; reflexivity); try reflexivity.
  apply valid_finite in Hv as [Hc He].
  unfold canonical_mantissa in Hc. apply Z.eqb_eq in Hc. rewrite fexp32 in Hc.
  change (F32.of_int 1) with (S754_finite false 8388608 (-23)).
  unfold F32.mul, SFmul, binary_round_aux.
  change F32.prec with 24. change F32.emax with 128.
  rewrite (Pos.mul_comm m). change (8388608 * m)%positive with (x2 23 m).
  rewrite (shr_fexp_shift _ _ _ _ _ 23)
    by (cbn [Zdigits2]; rewrite digits2_x2, fexp32; lia).
  change (shr (shr_record_of_loc (Z.pos (x2 23 m)) loc_Exact) (e + -23) 23)
    with ({| shr_m := Zpos m; shr_r := false; shr_s := false |}, e + -23 + 23).
  cbn [shr_m loc_of_shr_record round_nearest_even].
  rewrite (shr_fexp_shift _ _ _ _ _ 0)
    by (cbn [Zdigits2]; rewrite fexp32; lia).
  cbn [shr shr_record_of_loc shr_m].
  replace (e + -23 + 23 <=? 128 - 24) with true
    by (symmetry; apply Z.leb_le; lia).
  rewrite xorb_false_r. f_equal. lia.
Qed.

Section RunningSum.
Context `{Libm} `{AnimatorSig}.

Lemma advance_all_speed : forall dts (s : MySim),
  speed (advance_all dts s) = speed s.
Proof.
  induction dts as [|dt dts IH]; intros s; cbn; [reflexivity|].
  unfold advance_all in IH. rewrite IH. reflexivity.
Qed.

(** X2: at the default speed 1.0f the accumulator is the running [float]
    sum of the frame times, added in order; after [main] and any number of
    frames it is that sum started from zero. *)
Theorem unit_speed_sums_frame_times :
  forall (dts : list F32.t) (this : MySim),
    speed this = F32.of_int 1 ->
    Forall (fun dt => F32.valid dt = true) dts ->
    myVal (advance_all dts this) = fold_left F32.add dts (myVal this)
    /\ forall w : World,
         option_map myVal (simInstance (run_frames dts (main w)))
         = Some (fold_left F32.add dts (F32.of_int 0)).
Proof.
  assert (Hsum : forall dts (s : MySim),
            speed s = F32.of_int 1 ->
            Forall (fun dt => F32.valid dt = true) dts ->
            myVal (advance_all dts s) = fold_left F32.add dts (myVal s)).
  { induction dts as [|dt dts IH]; intros s Hs Hall; [reflexivity|].
    inversion Hall as [|? ? Hdt Hdts]; subst.
    change (advance_all (dt :: dts) s) with (advance_all dts (update dt s)).
    rewrite IH by assumption. cbn [fold_left myVal update].
    rewrite Hs, mul_one by assumption. reflexivity. }
  intros dts this Hs Hall. split; [apply Hsum; assumption|].
  intros w. rewrite run_frames_instance. cbn [main simInstance option_map].
  rewrite Hsum by (try reflexivity; assumption). reflexivity.
Qed.
End RunningSum.

(** *** The round bit of a right shift *)

Lemma iter_pos_nat : forall (A : Type) (f : A -> A) p x,
  iter_pos f p x = Nat.iter (Pos.to_nat p) f x.
Proof.
  intros A f. induction p as [p IH|p IH|]; intros x; cbn [iter_pos].
  - rewrite !IH, Pos2Nat.inj_xI.
    replace (S (2 * Pos.to_nat p)) with (Pos.to_nat p + (Pos.to_nat p + 1))%nat by lia.
    rewrite !Nat.iter_add. reflexivity.
  - rewrite !IH, Pos2Nat.inj_xO.
    replace (2 * Pos.to_nat p)%nat with (Pos.to_nat p + Pos.to_nat p)%nat by lia.
    rewrite Nat.iter_add. reflexivity.
  - reflexivity.
Qed.

Lemma nat_iter_shr_1_m : forall j r,
  0 <= shr_m r ->
  shr_m (Nat.iter j shr_1 r) = shr_m r / 2 ^ Z.of_nat j.
Proof.
  induction j as [|j IH]; intros r Hr.
  - cbn. rewrite Z.div_1_r. reflexivity.
  - rewrite Nat.iter_succ.
    assert (0 <= shr_m (Nat.iter j shr_1 r))
      by (rewrite IH by lia; apply Z.div_pos; [lia|apply Z.pow_pos_nonneg; lia]).
    rewrite shr_1_m, IH by lia.
    rewrite Z.div_div by (try apply Z.pow_pos_nonneg; lia).
    rewrite Nat2Z.inj_succ, Z.pow_succ_r by lia. f_equal. lia.
Qed.

Lemma shr_1_r : forall r, 0 <= shr_m r -> shr_r (shr_1 r) = Z.odd (shr_m r).
Proof.
  intros [m rb sb] Hm. cbn in Hm.
  destruct m as [|[p|p|]|p]; cbn [shr_1 shr_r shr_m]; try reflexivity. lia.
Qed.

(** After [p] shifts the round bit is bit [p - 1] of the mantissa. *)
Lemma iter_shr_1_r : forall p r,
  0 <= shr_m r ->
  shr_r (iter_pos shr_1 p r) = Z.odd (shr_m r / 2 ^ (Zpos p - 1)).
Proof.
  intros p r Hr. rewrite iter_pos_nat.
  destruct (Pos.to_nat p) as [|j] eqn:E; [lia|].
  rewrite Nat.iter_succ.
  assert (0 <= shr_m (Nat.iter j shr_1 r))
    by (rewrite nat_iter_shr_1_m by lia; apply Z.div_pos; [lia|apply Z.pow_pos_nonneg; lia]).
  rewrite shr_1_r, nat_iter_shr_1_m by lia.
  replace (Z.of_nat j) with (Zpos p - 1) by lia. reflexivity.
Qed.

(** A positive addend below half an ulp is absorbed by the rounding. *)
Lemma add_absorbs : forall a b,
  F32.valid a = true -> below_half_ulp b a = true -> F32.add a b = a.
Proof.
  intros [sa|sa| |sa ma ea] b Hv Hb; try discriminate.
  destruct sa; [discriminate|].
  destruct b as [sb|sb| |sb mb eb]; try discriminate.
  destruct sb; [discriminate|].
  cbn [below_half_ulp] in Hb. apply Z.ltb_lt in Hb.
  apply valid_finite in Hv as [Hc He]. apply canonical_iff in Hc.
  rewrite digits2_log2 in Hb.
  pose proof (Z.log2_nonneg (Zpos mb)) as Hlb.
  pose proof (Z.log2_nonneg (Zpos ma)) as Hla.
  set (k := ea - eb).
  assert (Hk : 2 <= k) by (unfold k; lia).
  unfold F32.add, SFadd. change F32.prec with 24. change F32.emax with 128.
  replace (Z.min ea eb) with eb by lia.
  pose proof (shl_align_fst ma ea eb ltac:(lia)) as HA. fold k in HA.
  rewrite (shl_align_le mb eb eb) by lia. cbn [fst cond_Zopp].
  set (A := fst (shl_align ma ea eb)) in *.
  change (Zpos A + Zpos mb) with (Zpos (A + mb)). cbn [binary_normalize].
  (* the addend is below 2^(k-1) *)
  assert (Hmb : Zpos mb < 2 ^ (k - 1)).
  { apply Z.log2_lt_pow2; [lia|]. unfold k. lia. }
  assert (Hpk : 2 ^ k = 2 * 2 ^ (k - 1)).
  { replace k with (Z.succ (k - 1)) at 1 by lia. apply Z.pow_succ_r. lia. }
  assert (Hp0 : 0 < 2 ^ (k - 1)) by (apply Z.pow_pos_nonneg; lia).
  assert (HM : Zpos (A + mb) = Zpos ma * 2 ^ k + Zpos mb)
    by (rewrite Pos2Z.inj_add, HA; reflexivity).
  assert (Hlog : Z.log2 (Zpos (A + mb)) = Z.log2 (Zpos ma) + k).
  { apply Z.log2_unique; [lia|]. rewrite HM.
    pose proof (Z.log2_spec (Zpos ma) ltac:(lia)) as [Hlo Hhi].
    rewrite Z.pow_succ_r in Hhi by lia.
    rewrite Z.pow_succ_r, !Z.pow_add_r by lia. nia. }
  assert (He1 : fexp 24 128 (Zpos (digits2_pos (A + mb)) + eb) = ea).
  { rewrite fexp32, digits2_log2, Hlog. unfold k. lia. }
  unfold binary_round. rewrite He1, shl_align_le by lia.
  rewrite round_aux_tail. unfold shr_fexp. cbn [Zdigits2]. rewrite He1.
  fold k. destruct k as [|p|p] eqn:Ek; try lia.
  cbn [shr shr_record_of_loc].
  set (rec := iter_pos shr_1 p {| shr_m := Zpos (A + mb); shr_r := false; shr_s := false |}).
  assert (Hm : shr_m rec = Zpos ma).
  { unfold rec. rewrite iter_shr_1_m by (cbn; lia). cbn [shr_m]. rewrite HM.
    rewrite Z.div_add_l by lia. rewrite Z.div_small by lia. lia. }
  assert (Hr : shr_r rec = false).
  { unfold rec. rewrite iter_shr_1_r by (cbn; lia). cbn [shr_m]. rewrite HM, Hpk.
    replace (Zpos ma * (2 * 2 ^ (Zpos p - 1))) with (2 * Zpos ma * 2 ^ (Zpos p - 1)) by lia.
    rewrite Z.div_add_l by lia. rewrite Z.div_small by lia.
    rewrite Z.add_0_r, Z.odd_mul. reflexivity. }
  replace (eb + Zpos p) with ea by lia.
  unfold round_tail.
  assert (Hround : round_nearest_even (shr_m rec) (loc_of_shr_record rec) = Zpos ma).
  { destruct rec as [m r s]. cbn [shr_m shr_r] in Hm, Hr. subst m r. destruct s; reflexivity. }
  rewrite Hround.
  rewrite (shr_fexp_shift _ _ _ _ _ 0)
    by (cbn [Zdigits2]; rewrite fexp32, digits2_log2; lia).
  cbn [shr shr_record_of_loc shr_m].
  replace (ea <=? 128 - 24) with true by (symmetry; apply Z.leb_le; lia).
  reflexivity.
Qed.

Section Stagnation.
Context `{AnimatorSig}.

(** X3: once the increment [dt * speed] is positive but below half an ulp
    of a positive [myVal], [update] leaves [myVal] exactly as it is, and so
    does any number of further frames of that length: the accumulator has
    stopped. *)
Theorem accumulator_stagnates :
  forall (n : nat) (dt : F32.t) (this : MySim),
    F32.valid (myVal this) = true ->
    below_half_ulp (F32.mul dt (speed this)) (myVal this) = true ->
    myVal (advance_all (repeat dt n) this) = myVal this.
Proof.
  induction n as [|n IH]; intros dt this Hv Hb; [reflexivity|].
  change (advance_all (repeat dt (S n)) this)
    with (advance_all (repeat dt n) (update dt this)).
  assert (Hstep : myVal (update dt this) = myVal this)
    by (cbn [myVal update]; apply add_absorbs; assumption).
  rewrite IH.
  - exact Hstep.
  - rewrite Hstep. exact Hv.
  - rewrite Hstep. exact Hb.
Qed.
End Stagnation.

(** X3 (witness): with [myVal = 2^20] and frames of 16 ms. *)
Lemma accumulator_stagnates_witness :
  let this := update (F32.of_int 1048576) (@MySim_new stateless_animator) in
  myVal (advance_all (repeat dt_16ms 1000) this) = myVal this.
Proof.
  intros this. apply accumulator_stagnates; reflexivity.
Defined.

Section ZeroFrame.
Context `{AnimatorSig}.

(** X4: with a finite [speed], a frame time of zero changes nothing in
    [myVal], except that a negative zero may become a positive one. *)
Theorem update_zero_frame_time :
  forall (dt : F32.t) (this : MySim),
    is_zero dt = true ->
    is_finite (speed this) = true ->
    myVal (update dt this) = myVal this
    \/ (myVal this = S754_zero true
        /\ myVal (update dt this) = S754_zero false).
Proof.
  intros dt this Hdt Hsp. cbn [myVal update].
  destruct dt as [sd|sd| |sd md ed]; try discriminate.
  destruct (speed this) as [ss|ss| |ss ms es]; try discriminate;
    cbn [F32.mul SFmul];
    destruct (myVal this) as [sa|sa| |sa ma ea];
    try (left; reflexivity);
    destruct sa, sd, ss; cbn; auto.
Qed.

(** X5: [update] turns [myVal] into NaN exactly when [myVal] already is NaN,
    the frame time or the speed is NaN, one of them is zero and the other
    infinite, or [myVal] is an infinity and the increment the opposite
    infinity. *)
Theorem update_nan_iff :
  forall (dt : F32.t) (this : MySim),
    F32.valid dt = true ->
    F32.valid (speed this) = true ->
    myVal (update dt this) = S754_nan <->
    (myVal this = S754_nan
     \/ dt = S754_nan
     \/ speed this = S754_nan
     \/ (is_zero dt = true /\ is_inf (speed this) = true)
     \/ (is_inf dt = true /\ is_zero (speed this) = true)
     \/ exists s, myVal this = S754_infinity s
                  /\ F32.mul dt (speed this) = S754_infinity (negb s)).
Proof.
  intros dt this Vd Vs. cbn [myVal update].
  assert (Hmul : F32.mul dt (speed this) = S754_nan <->
                 (dt = S754_nan \/ speed this = S754_nan
                  \/ (is_zero dt = true /\ is_inf (speed this) = true)
                  \/ (is_inf dt = true /\ is_zero (speed this) = true))).
  { destruct dt as [sd|sd| |sd md ed] eqn:Ed,
             (speed this) as [ss|ss| |ss ms es] eqn:Es;
      try (split; [discriminate| intros [?|[?|[[? ?]|[? ?]]]]; discriminate]);
      try (split; [intros _|reflexivity]; cbn; tauto).
    split.
    - intros E. exfalso. revert E. apply mul_finite_not_nan; auto.
    - intros [?|[?|[[? ?]|[? ?]]]]; discriminate. }
  assert (Hadd : forall a p, F32.add a p = S754_nan <->
                 (a = S754_nan \/ p = S754_nan
                  \/ exists s, a = S754_infinity s /\ p = S754_infinity (negb s))).
  { intros a p.
    destruct a as [sa|sa| |sa ma ea], p as [sp|sp| |sp mp ep];
      try (split; [intros _; auto|reflexivity]);
      try (split; [ destruct sa, sp; discriminate
                  | intros [?|[?|(s & ? & ?)]]; discriminate ]);
      try (split; [ discriminate
                  | intros [?|[?|(s & ? & ?)]]; discriminate ]).
    - (* two infinities *)
      split.
      + intros E. right. right. exists sa. split; [reflexivity|].
        destruct sa, sp; try discriminate; reflexivity.
      + intros [?|[?|(s & Ea & Ep)]]; try discriminate.
        injection Ea as <-. injection Ep as ->. destruct sa; reflexivity.
    - (* two finite numbers *)
      split.
      + intros E. exfalso. revert E. apply add_finite_not_nan.
      + intros [?|[?|(s & ? & ?)]]; discriminate. }
  rewrite Hadd, Hmul. tauto.
Qed.

(** X6: NaN is absorbing: once [myVal] is NaN, no sequence of frames and
    property assignments changes it. *)
Theorem nan_is_absorbing :
  forall (evs : list Event) (this : MySim),
    myVal this = S754_nan ->
    myVal (run evs this) = S754_nan.
Proof.
  intros evs this Hnan. apply run_nan. exact Hnan.
Qed.
End ZeroFrame.

(** *** Negation and order *)

Lemma SFopp_involutive : forall x, SFopp (SFopp x) = x.
Proof. intros [s|s| |s m e]; cbn; rewrite ?negb_involutive; reflexivity. Qed.

Lemma valid_opp : forall x, F32.valid (SFopp x) = F32.valid x.
Proof. intros [s|s| |s m e]; reflexivity. Qed.

Lemma ltb_opp : forall x y, SFltb (SFopp x) (SFopp y) = SFltb y x.
Proof.
  intros x y. unfold SFltb.
  destruct x as [sx|sx| |sx mx ex], y as [sy|sy| |sy my ey];
    try reflexivity; try (destruct sx; reflexivity);
    try (destruct sy; reflexivity);
    try (destruct sx, sy; reflexivity).
  cbn [SFopp SFcompare].
  destruct sx, sy; cbn [negb]; try reflexivity.
  - rewrite (Z.compare_antisym ey ex).
    destruct (ey ?= ex); cbn [CompOpp]; try reflexivity.
    rewrite (Pos.compare_cont_antisym my mx Eq). reflexivity.
  - rewrite (Z.compare_antisym ey ex).
    destruct (ey ?= ex); cbn [CompOpp]; try reflexivity.
    rewrite (Pos.compare_cont_antisym mx my Eq). reflexivity.
Qed.

Lemma nonneg_opp : forall b, nonpos b -> nonneg (SFopp b).
Proof.
  unfold nonpos, nonneg, F32.leb, SFleb.
  intros [s|s| |s m e] H; try discriminate; try reflexivity;
    destruct s; try discriminate; reflexivity.
Qed.

Lemma cond_Zopp_negb : forall s z, cond_Zopp (negb s) z = - cond_Zopp s z.
Proof. intros [|] z; cbn; lia. Qed.

(** Negating both operands negates the sum, unless the sum is an exact
    zero, which is [+0] either way. *)
Lemma add_opp : forall a b,
  F32.add (SFopp a) (SFopp b) = SFopp (F32.add a b)
  \/ (F32.add a b = S754_zero false
      /\ F32.add (SFopp a) (SFopp b) = S754_zero false).
Proof.
  intros a b.
  destruct a as [sa|sa| |sa ma ea], b as [sb|sb| |sb mb eb];
    try (left; reflexivity);
    try (destruct sa, sb; cbn; auto; fail).
  unfold F32.add, SFadd. cbn [SFopp]. rewrite !cond_Zopp_negb.
  set (A := cond_Zopp sa (Zpos (fst (shl_align ma ea (Z.min ea eb))))).
  set (B := cond_Zopp sb (Zpos (fst (shl_align mb eb (Z.min ea eb))))).
  replace (- A + - B) with (- (A + B)) by lia.
  destruct (A + B) as [|p|p]; cbn [Z.opp binary_normalize].
  - right. auto.
  - left. symmetry. apply (binary_round_opp F32.prec F32.emax false).
  - left. symmetry. apply (binary_round_opp F32.prec F32.emax true).
Qed.

(** Adding a non-positive float never gives more than what was there. *)
Lemma add_not_above : forall a b,
  F32.valid a = true -> nonpos b ->
  F32.ltb a (F32.add a b) = false.
Proof.
  intros a b Hv Hb.
  pose proof (add_not_below (SFopp a) (SFopp b)) as H.
  rewrite valid_opp in H. specialize (H Hv (nonneg_opp b Hb)).
  unfold F32.ltb in *.
  destruct (add_opp a b) as [E|[E0 E1]].
  - rewrite E, ltb_opp in H. exact H.
  - rewrite E1 in H. rewrite E0.
    destruct a as [sa|sa| |sa ma ea]; try reflexivity;
      destruct sa; try reflexivity; discriminate.
Qed.

Lemma mul_nonpos : forall x y,
  F32.valid x = true -> F32.valid y = true ->
  nonneg x -> nonpos y ->
  F32.mul x y = S754_nan \/ nonpos (F32.mul x y).
Proof.
  intros x y Vx Vy Hx Hy.
  assert (Vy' : F32.valid (SFopp y) = true) by (rewrite valid_opp; exact Vy).
  destruct (mul_nonneg x (SFopp y) Vx Vy' Hx (nonneg_opp y Hy)) as [E|E].
  - left. unfold F32.mul in *. rewrite SFmul_opp_r in E.
    destruct (SFmul F32.prec F32.emax x y); try discriminate. reflexivity.
  - right. unfold F32.mul, nonneg, nonpos, F32.leb, SFleb in *.
    rewrite SFmul_opp_r in E.
    destruct (SFmul F32.prec F32.emax x y) as [s|s| |s m e];
      try discriminate; try reflexivity; destruct s; try discriminate; reflexivity.
Qed.

Section Backwards.
Context `{AnimatorSig}.

(** X7: with a non-positive [speed] the accumulator runs backwards: over
    any sequence of [update] calls with non-negative frame times [myVal]
    never becomes larger. *)
Theorem myVal_never_increases :
  forall (dts : list F32.t) (this : MySim),
    F32.valid (myVal this) = true ->
    F32.valid (speed this) = true ->
    nonpos (speed this) ->
    Forall (fun dt => F32.valid dt = true /\ nonneg dt) dts ->
    F32.ltb (myVal this) (myVal (advance_all dts this)) = false.
Proof.
  induction dts as [|dt dts IH]; intros this Vm Vs Hs Hall.
  - apply ltb_refl_false.
  - inversion Hall as [|? ? [Vd Hd] Hdts]; subst.
    change (advance_all (dt :: dts) this)
      with (advance_all dts (update dt this)).
    assert (Hstep : F32.ltb (myVal this) (myVal (update dt this)) = false).
    { cbn [myVal update].
      destruct (mul_nonpos dt (speed this) Vd Vs Hd Hs) as [E|E].
      - rewrite E. destruct (myVal this) as [s|s| |s m e]; reflexivity.
      - apply add_not_above; assumption. }
    assert (Vm' : F32.valid (myVal (update dt this)) = true).
    { cbn [myVal update]. apply add_valid; [assumption|].
      apply mul_valid; assumption. }
    specialize (IH (update dt this) Vm' Vs Hs Hdts).
    destruct (nan_dec (myVal (update dt this))) as [E|E].
    + assert (En : myVal (advance_all dts (update dt this)) = S754_nan).
      { rewrite advance_all_run. apply run_nan. exact E. }
      rewrite En. destruct (myVal this) as [s|s| |s m e]; reflexivity.
    + unfold F32.ltb in *. eapply ltb_trans_false; [exact E|exact Hstep|exact IH].
Qed.
End Backwards.

(** X7 (witness): speed -1, three frames of 16 ms. *)
Lemma myVal_never_increases_witness :
  let this := set_speed (SFopp (F32.of_int 1)) (@MySim_new stateless_animator) in
  let dts := [dt_16ms; dt_16ms; dt_16ms] in
  F32.ltb (myVal this) (myVal (advance_all dts this)) = false.
Proof.
  intros this dts. apply myVal_never_increases; try reflexivity.
  repeat constructor.
Defined.

Section HostLoop.
Context `{Libm} `{AnimatorSig}.

Lemma draw_same_size : forall a b : MySim, size a = size b -> draw a = draw b.
Proof.
  intros a b Hab. unfold draw, curve_x, curve_y, half_size.
  rewrite Hab. reflexivity.
Qed.


(** X8: frames leave the tunables alone: after any number of frames a live
    instance is still live with the same [size] and [speed], and a null
    pointer is still null with no call made. *)
Theorem frames_keep_tunables :
  forall (fts : list F32.t) (w : World),
    match simInstance w with
    | Some sim =>
        exists sim',
          getSimInstance (run_frames fts w) = Some sim'
          /\ size sim' = size sim /\ speed sim' = speed sim
    | None =>
        getSimInstance (run_frames fts w) = None
        /\ calls (run_frames fts w) = calls w
    end.
Proof.
  intros fts w. unfold getSimInstance. rewrite run_frames_instance.
  destruct (simInstance w) as [sim|] eqn:Hw; cbn [option_map].
  - exists (advance_all fts sim).
    rewrite advance_all_size, advance_all_speed. auto.
  - split; [reflexivity|].
    revert w Hw. induction fts as [|ft fts IH]; intros w Hw; [reflexivity|].
    change (run_frames (ft :: fts) w) with (run_frames fts (frame ft w)).
    assert (Hf : simInstance (frame ft w) = None /\ calls (frame ft w) = calls w)
      by (unfold frame, UpdateDrawFrame; cbn; rewrite Hw; auto).
    destruct Hf as [Hf1 Hf2]. rewrite (IH _ Hf1). exact Hf2.
Qed.

End HostLoop.

Section Collapse.
Context `{Libm} `{AnimatorSig}.

Lemma mul64_zero_r : forall w s,
  (is_finite w = true -> is_zero (F64.mul w (S754_zero s)) = true)
  /\ (is_finite w = false -> F64.mul w (S754_zero s) = S754_nan).
Proof.
  intros [sw|sw| |sw mw ew] s; split; intros Hf; try discriminate; reflexivity.
Qed.

(** X10: with [size] zero the curve collapses: a coordinate is a zero
    whenever the size-independent factor in front of it is finite, and NaN
    otherwise; it is never a non-zero number. *)
Theorem zero_size_collapses_curve :
  forall (this : MySim) (t : F32.t),
    is_zero (size this) = true ->
    let wx := F64.mul (F64.of_f32 (sinf t)) (wing t) in
    let wy := F64.mul (F64.of_f32 (cosf t)) (wing t) in
    (is_finite wx = true -> is_zero (curve_x this t) = true)
    /\ (is_finite wx = false -> curve_x this t = S754_nan)
    /\ (is_finite wy = true -> is_zero (curve_y this t) = true)
    /\ (is_finite wy = false -> curve_y this t = S754_nan).
Proof.
  intros this t Hz wx wy. unfold curve_x, curve_y, half_size.
  destruct (size this) as [s| | |]; try discriminate.
  change (F64.of_f32 (F32.mul (S754_zero s) (F32.dyadic 1 (-1))))
    with (S754_zero (xorb s false)).
  fold wx wy.
  destruct (mul64_zero_r wx (xorb s false)) as [Hx1 Hx2].
  destruct (mul64_zero_r wy (xorb s false)) as [Hy1 Hy2].
  auto.
Qed.
End Collapse.

Section Independence.
Context `{AnimatorSig}.

Lemma run_size : forall (evs : list Event) (this : MySim),
  size (run evs this) = last_size evs (size this).
Proof.
  induction evs as [|ev evs IH]; intros this; [reflexivity|].
  change (run (ev :: evs) this) with (run evs (step ev this)).
  rewrite IH. destruct ev; reflexivity.
Qed.

(** X11: the two tunables do not interfere: the [size] left by a sequence of
    frames and assignments is the last one assigned (the initial one if
    none was), and [myVal] and [speed] come out the same whatever [size]
    the object started with. *)
Theorem size_and_clock_are_independent :
  forall (evs : list Event) (this : MySim) (v : F32.t),
    size (run evs this) = last_size evs (size this)
    /\ myVal (run evs (set_size v this)) = myVal (run evs this)
    /\ speed (run evs (set_size v this)) = speed (run evs this).
Proof.
  intros evs this v. split; [apply run_size|].
  assert (Hgen : forall evs (a b : MySim),
            myVal a = myVal b -> speed a = speed b ->
            myVal (run evs a) = myVal (run evs b)
            /\ speed (run evs a) = speed (run evs b)).
  { induction evs0 as [|ev evs0 IH]; intros a b Hm Hs; [auto|].
    change (run (ev :: evs0) a) with (run evs0 (step ev a)).
    change (run (ev :: evs0) b) with (run evs0 (step ev b)).
    apply IH; destruct ev; cbn; congruence. }
  apply Hgen; reflexivity.
Qed.
End Independence.

Section AnimatorFeed.
Context `{AnimatorSig}.

(** X12: the animation helper is fed the raw frame times, one per [update]
    and in order; neither [speed] nor [size] nor their assignments reach
    it. *)
Theorem animator_sees_raw_frame_times :
  forall (evs : list Event) (this : MySim),
    anim (run evs this)
    = fold_left
        (fun a ev => match ev with
                     | advance dt => Animator_update a dt
                     | _ => a
                     end)
        evs (anim this).
Proof.
  induction evs as [|ev evs IH]; intros this; [reflexivity|].
  change (run (ev :: evs) this) with (run evs (step ev this)).
  rewrite IH. destruct ev; reflexivity.
Qed.
End AnimatorFeed.

(** X4 (witness): the fresh object and a frame time of zero. *)
Lemma update_zero_frame_time_witness :
  let this := @MySim_new stateless_animator in
  myVal (update (F32.of_int 0) this) = myVal this
  \/ (myVal this = S754_zero true
      /\ myVal (update (F32.of_int 0) this) = S754_zero false).
Proof.
  intros this. apply update_zero_frame_time; reflexivity.
Defined.

(** X5 (witness): an infinite speed meets a frame time of zero. *)
Lemma update_nan_iff_witness :
  let this := set_speed (S754_infinity false) (@MySim_new stateless_animator) in
  myVal (update (F32.of_int 0) this) = S754_nan.
Proof.
  intros this.
  apply (proj2 (update_nan_iff (F32.of_int 0) this eq_refl eq_refl)).
  right. right. right. left. split; reflexivity.
Defined.

(** X6 (witness): a NaN frame time, then ordinary frames and a new
    speed. *)
Lemma nan_is_absorbing_witness :
  let this := update S754_nan (@MySim_new stateless_animator) in
  myVal (run [advance dt_16ms; assign_speed (F32.of_int 3); advance dt_16ms]
             this)
  = S754_nan.
Proof.
  intros this. apply nan_is_absorbing. reflexivity.
Defined.

(** X2 (witness): three frames of 16 ms on the fresh object. *)
Lemma unit_speed_sums_frame_times_witness :
  let dts := [dt_16ms; dt_16ms; dt_16ms] in
  let this := @MySim_new stateless_animator in
  myVal (advance_all dts this) = fold_left F32.add dts (myVal this).
Proof.
  intros dts this.
  apply (@unit_speed_sums_frame_times libm_table _ dts this).
  - reflexivity.
  - repeat constructor.
Defined.

(** X10 (witness): size zero at [t = 0]. *)
Lemma zero_size_collapses_curve_witness :
  let this := set_size (F32.of_int 0) (@MySim_new stateless_animator) in
  is_zero (@curve_y libm_table _ this (F32.of_int 0)) = true.
Proof.
  intros this.
  apply (@zero_size_collapses_curve libm_table _ this (F32.of_int 0));
    reflexivity.
Defined.
